(** * trio/_core/_parking_lot.py: the ParkingLot wait queue

    A shallow embedding of [ParkingLot] and of the module level counter it
    draws sequence numbers from, followed by the proofs of its ordering,
    cancellation and transfer properties.

    Python objects that the code shares by reference are kept in explicit
    stores: the 3-lists used as tickets live in [tickets] and are named by
    their index, the [_parked] table of every lot lives in [lots].  Methods
    are computations in a state-and-exception monad over that store. *)

From Stdlib Require Import ZArith Lia.
From stdpp Require Import base list sorting gmap strings.

Open Scope Z_scope.
Open Scope nat_scope.

(** ** Values *)

(** A task is an opaque handle supplied by the scheduler. *)
Abbreviation task := nat (only parsing).
(** The identity of a [ParkingLot] object. *)
Abbreviation lot_id := nat (only parsing).
(** A reference to a ticket, the 3-list [[task, idx, lot]]. *)
Abbreviation tref := nat (only parsing).

(** The Python values that reach [repark] as [new_lot]. *)
Inductive pyval :=
  | PNone
  | PInt (z : Z)
  | PStr (s : string)
  | PLot (q : lot_id).

(** [isinstance(v, ParkingLot)] *)
Definition isinstance_ParkingLot (v : pyval) : bool :=
  match v with PLot _ => true | _ => false end.

(** What [unpark] hands to a woken task: [_core.Value(v)] or [_core.Error(e)]. *)
Inductive Outcome :=
  | Value (v : pyval)
  | Error (msg : string).

(** [_core.Abort] *)
Inductive Abort := SUCCEEDED | FAILED.

(** The [count] argument: the sentinel [ParkingLot.ALL] or an integer. *)
Inductive count_arg :=
  | ALL
  | Count (n : Z).

(** The ticket [[task, idx, lot]]; [park] creates it as [[task, None, None]]. *)
Record ticket := Ticket {
  t_task : task;
  t_idx : option nat;
  t_lot : option lot_id
}.

(** ** SortedDict

    [sortedcontainers.SortedDict] restricted to what the lot uses: the
    entries in ascending key order, one entry per key. *)
Module SortedDict.

Abbreviation t := (list (nat * tref)) (only parsing).

(** [d[k] = v] *)
Fixpoint setitem (k : nat) (v : tref) (d : t) : t :=
  match d with
  | [] => [(k, v)]
  | (k', v') :: d' =>
      if decide (k < k') then (k, v) :: (k', v') :: d'
      else if decide (k = k') then (k, v) :: d'
      else (k', v') :: setitem k v d'
  end.

(** [del d[k]]; [None] stands for [KeyError]. *)
Fixpoint delitem (k : nat) (d : t) : option t :=
  match d with
  | [] => None
  | (k', v') :: d' =>
      if decide (k = k') then Some d'
      else match delitem k d' with
           | Some d'' => Some ((k', v') :: d'')
           | None => None
           end
  end.

(** [d.popitem(last=False)]; [None] stands for [KeyError]. *)
Definition popitem_first (d : t) : option ((nat * tref) * t) :=
  match d with
  | [] => None
  | kv :: d' => Some (kv, d')
  end.

(** [len(d)] *)
Definition len (d : t) : Z := Z.of_nat (length d).

(** [bool(d)] *)
Definition truth (d : t) : bool :=
  match d with [] => false | _ :: _ => true end.

Definition keys (d : t) : list nat := d.*1.
Definition values (d : t) : list tref := d.*2.

End SortedDict.

(** ** Program state *)

Record state := State {
  (** the next value of [_counter = count()] *)
  counter : nat;
  (** every ticket list allocated so far; a [tref] is an index here *)
  tickets : list ticket;
  (** [lot._parked] of every lot *)
  lots : gmap lot_id SortedDict.t;
  (** the calls [_core.reschedule(task, result)] made so far, oldest first *)
  runq : list (task * Outcome)
}.

(** At import time: [_counter = count()] starts at 0 and nothing exists yet. *)
Definition init : state := State 0 [] ∅ [].

(** [lot._parked]; a lot that was never written to has the empty
    [SortedDict] that [attr.Factory(SortedDict)] gave it. *)
Definition parked (s : state) (q : lot_id) : SortedDict.t :=
  default [] (lots s !! q).

Definition set_counter (n : nat) (s : state) : state :=
  State n (tickets s) (lots s) (runq s).
Definition set_tickets (ts : list ticket) (s : state) : state :=
  State (counter s) ts (lots s) (runq s).
Definition set_parked (q : lot_id) (d : SortedDict.t) (s : state) : state :=
  State (counter s) (tickets s) (<[q := d]> (lots s)) (runq s).
Definition set_runq (r : list (task * Outcome)) (s : state) : state :=
  State (counter s) (tickets s) (lots s) r.

(** ** The monad: state plus Python exceptions *)

Inductive exn :=
  | TypeError (msg : string)
  | KeyError
  | AttributeError
  (** not a Python exception: a [tref] that names no allocated ticket,
      which no Python reference can be *)
  | NoSuchTicket.

Inductive res (A : Type) :=
  | Ok (a : A)
  | Raise (e : exn).
Arguments Ok {A} a.
Arguments Raise {A} e.

Definition M (A : Type) : Type := state → res A * state.

Definition ret {A} (a : A) : M A := λ s, (Ok a, s).
Definition raise {A} (e : exn) : M A := λ s, (Raise e, s).
Definition bind {A B} (m : M A) (f : A → M B) : M B :=
  λ s, match m s with
       | (Ok a, s') => f a s'
       | (Raise e, s') => (Raise e, s')
       end.

Notation "'let!' x ':=' c1 'in' c2" := (bind c1 (λ x, c2))
  (at level 10, x name, c1 at level 100, c2 at level 200).

(** ** Primitive steps *)

(** [next(_counter)] *)
Definition next_counter : M nat :=
  λ s, (Ok (counter s), set_counter (S (counter s)) s).

(** [[task, None, None]]: a fresh list object *)
Definition new_ticket (t : task) : M tref :=
  λ s, (Ok (length (tickets s)), set_tickets (tickets s ++ [Ticket t None None]) s).

(** reading the three items of a ticket *)
Definition load (tr : tref) : M ticket :=
  λ s, match tickets s !! tr with
       | Some t => (Ok t, s)
       | None => (Raise NoSuchTicket, s)
       end.

(** [ticket[1] = idx] *)
Definition store_idx (tr : tref) (idx : nat) : M unit :=
  λ s, match tickets s !! tr with
       | Some t => (Ok tt, set_tickets (<[tr := Ticket (t_task t) (Some idx) (t_lot t)]> (tickets s)) s)
       | None => (Raise NoSuchTicket, s)
       end.

(** [ticket[2] = lot] *)
Definition store_lot (tr : tref) (q : lot_id) : M unit :=
  λ s, match tickets s !! tr with
       | Some t => (Ok tt, set_tickets (<[tr := Ticket (t_task t) (t_idx t) (Some q)]> (tickets s)) s)
       | None => (Raise NoSuchTicket, s)
       end.

(** [lot._parked[idx] = ticket] *)
Definition parked_setitem (q : lot_id) (idx : nat) (tr : tref) : M unit :=
  λ s, (Ok tt, set_parked q (SortedDict.setitem idx tr (parked s q)) s).

(** [del lot._parked[idx]] *)
Definition parked_delitem (q : lot_id) (idx : nat) : M unit :=
  λ s, match SortedDict.delitem idx (parked s q) with
       | Some d => (Ok tt, set_parked q d s)
       | None => (Raise KeyError, s)
       end.

(** [_, ticket = lot._parked.popitem(last=False)] *)
Definition parked_popitem_first (q : lot_id) : M tref :=
  λ s, match SortedDict.popitem_first (parked s q) with
       | Some ((_, tr), d) => (Ok tr, set_parked q d s)
       | None => (Raise KeyError, s)
       end.

(** [len(lot._parked)] *)
Definition parked_len (q : lot_id) : M Z :=
  λ s, (Ok (SortedDict.len (parked s q)), s).

(** [_core.reschedule(task, result)] *)
Definition reschedule (t : task) (result : Outcome) : M unit :=
  λ s, (Ok tt, set_runq (runq s ++ [(t, result)]) s).

(** [for x in xs: body(x)] *)
Fixpoint for_each {A} (xs : list A) (body : A → M unit) : M unit :=
  match xs with
  | [] => ret tt
  | x :: xs' => let! _ := body x in for_each xs' body
  end.

(** ** class ParkingLot *)

Record _ParkingLotStatistics := { tasks_waiting : Z }.

Module ParkingLot.

Definition statistics (self : lot_id) : M _ParkingLotStatistics :=
  let! n := parked_len self in
  ret {| tasks_waiting := n |}.

Definition __len__ (self : lot_id) : M Z :=
  parked_len self.

Definition __bool__ (self : lot_id) : M bool :=
  λ s, (Ok (SortedDict.truth (parked s self)), s).

Definition _deposit_ticket (self : lot_id) (ticket : tref) : M unit :=
  let! idx := next_counter in
  let! _ := store_idx ticket idx in
  let! _ := store_lot ticket self in
  parked_setitem self idx ticket.

(** The closure [abort] that [park] defines.  It captures the variable
    [ticket], a reference to the list object, so it reads the items the
    list holds when it is called. *)
Definition abort (ticket : tref) : M Abort :=
  let! t := load ticket in
  match t_lot t with
  | None => raise AttributeError
  | Some lot =>
      match t_idx t with
      | None => raise KeyError
      | Some idx => let! _ := parked_delitem lot idx in ret SUCCEEDED
      end
  end.

(** [park] up to the point where the task suspends in
    [yield_indefinitely(abort)].  The result is the ticket the closure
    [abort] holds: the scheduler cancels the task with [abort ticket]. *)
Definition park (self : lot_id) (current_task : task) : M tref :=
  let! ticket := new_ticket current_task in
  let! _ := _deposit_ticket self ticket in
  ret ticket.

(** The argument of [range] in [_pop_several]. *)
Definition pop_bound (self : lot_id) (count : count_arg) : M Z :=
  let! count := match count with
                | ALL => parked_len self
                | Count c => ret c
                end in
  let! n := parked_len self in
  ret (Z.min count n).

(** The loop of the generator [_pop_several], with the code that
    consumes each yielded ticket as [body]: a generator runs interleaved
    with its consumer, one pop, then the body, then the next pop. *)
Fixpoint pop_loop {A} (self : lot_id) (n : nat) (body : tref → M A) : M (list A) :=
  match n with
  | O => ret []
  | S n' =>
      let! ticket := parked_popitem_first self in
      let! a := body ticket in
      let! rest := pop_loop self n' body in
      ret (a :: rest)
  end.

(** [for ticket in self._pop_several(count): body(ticket)]; [range]
    is evaluated once, when the generator starts. *)
Definition _pop_several {A} (self : lot_id) (count : count_arg)
    (body : tref → M A) : M (list A) :=
  let! n := pop_bound self count in
  pop_loop self (Z.to_nat n) body.

Definition unpark (self : lot_id) (count : count_arg) (result : Outcome)
    : M (list task) :=
  let! tasks := _pop_several self count (λ ticket, let! t := load ticket in ret (t_task t)) in
  let! _ := for_each tasks (λ task, reschedule task result) in
  ret tasks.

(** [new_lot._deposit_ticket(ticket)]: only a lot has the method. *)
Definition call_deposit_ticket (new_lot : pyval) (ticket : tref) : M unit :=
  match new_lot with
  | PLot q => _deposit_ticket q ticket
  | _ => raise AttributeError
  end.

Definition repark (self : lot_id) (new_lot : pyval) (count : count_arg) : M unit :=
  if negb (isinstance_ParkingLot new_lot)
  then raise (TypeError "new_lot must be a ParkingLot")
  else
    let! _ := _pop_several self count (λ ticket, call_deposit_ticket new_lot ticket) in
    ret tt.

End ParkingLot.
Import ParkingLot.

(** ** Notions used in the statements *)

(** The entries are in strictly ascending key order. *)
Definition ascending (d : SortedDict.t) : Prop :=
  StronglySorted lt (SortedDict.keys d).

(** The ticket [tr] is in no table: it was just created, or just popped. *)
Definition floating (s : state) (tr : tref) : Prop :=
  ∀ q k, (k, tr) ∉ parked s q.

Record wf (s : state) : Prop := {
  (** every table is in strictly ascending key order *)
  wf_ascending : ∀ q, ascending (parked s q);
  (** a ticket in a table records that table and its key there *)
  wf_owner : ∀ q k tr, (k, tr) ∈ parked s q →
    ∃ t, tickets s !! tr = Some (Ticket t (Some k) (Some q));
  (** every sequence number handed out so far is below the counter *)
  wf_idx : ∀ tr t k,
    tickets s !! tr = Some t → t_idx t = Some k → k < counter s
}.

(** The state after [lot._deposit_ticket(ticket)], for a ticket that
    holds [t] on entry. *)
Definition deposited (q : lot_id) (tr : tref) (t : ticket) (s : state) : state :=
  State (S (counter s))
        (<[tr := Ticket (t_task t) (Some (counter s)) (Some q)]> (tickets s))
        (<[q := SortedDict.setitem (counter s) tr (parked s q)]> (lots s))
        (runq s).

(** The state after the synchronous part of [lot.park()] run by task [t]. *)
Definition parked_by (q : lot_id) (t : task) (s : state) : state :=
  State (S (counter s))
        (tickets s ++ [Ticket t (Some (counter s)) (Some q)])
        (<[q := parked s q ++ [(counter s, length (tickets s))]]> (lots s))
        (runq s).

(** How many tickets [_pop_several] pops from a table of [size] entries:
    the length of [range(min(count, size))]. *)
Definition pop_count (c : count_arg) (size : nat) : nat :=
  match c with
  | ALL => size
  | Count z => Z.to_nat (Z.min z (Z.of_nat size))
  end.

(** The task a ticket belongs to, and the tasks of a list of tickets. *)
Definition task_of (s : state) (tr : tref) : option task :=
  t_task <$> tickets s !! tr.
Definition tasks_of (s : state) (trs : list tref) : list task :=
  omap (task_of s) trs.

(** The tasks parked in a lot, front of the table first. *)
Definition lot_tasks (s : state) (q : lot_id) : list task :=
  tasks_of s (parked s q).*2.

(** [s'] differs from [s] at most in the table of lot [q]. *)
Definition same_but_table (q : lot_id) (s s' : state) : Prop :=
  counter s' = counter s ∧ tickets s' = tickets s ∧ runq s' = runq s ∧
  ∀ q', q ≠ q' → parked s' q' = parked s q'.

(** The entries that [repark] puts into the target table when it moves
    the first [n] tickets of lot [q1]: the tickets in the order they
    were popped, under the next [n] values of the counter. *)
Definition moved (s : state) (q1 : lot_id) (n : nat) : SortedDict.t :=
  zip (seq (counter s) n) (take n (parked s q1)).*2.

(** ** Histories

    What the rest of the program can do to the lots: a task parks, some
    code calls [unpark] or [repark], or the scheduler cancels a parked
    task by calling the [abort] closure that [park] handed to it. *)
Inductive op :=
  | Park (q : lot_id) (t : task)
  | Unpark (q : lot_id) (count : count_arg) (result : Outcome)
  | Cancel (ticket : tref)
  | Repark (q : lot_id) (new_lot : pyval) (count : count_arg).

(** The state an operation leaves behind, whether it returns or raises. *)
Definition step (o : op) (s : state) : state :=
  match o with
  | Park q t => (park q t s).2
  | Unpark q c r => (unpark q c r s).2
  | Cancel tr => (abort tr s).2
  | Repark q v c => (repark q v c s).2
  end.

Definition run (ops : list op) (s : state) : state :=
  foldl (λ s o, step o s) s ops.

(** The states the program can be in. *)
Definition reachable (s : state) : Prop := ∃ ops, s = run ops init.

(** The tasks [ts] call [lot.park()] one after the other; the result is
    the list of their tickets. *)
Fixpoint park_each (q : lot_id) (ts : list task) : M (list tref) :=
  match ts with
  | [] => ret []
  | t :: ts' =>
      let! tr := park q t in
      let! trs := park_each q ts' in
      ret (tr :: trs)
  end.

(** Task [A] then task [B] park in [q1] and task [C] parks in [q2]; all
    of [q1] is reparked to [q2]; then all of [q2] is unparked. *)
Definition repark_then_unpark (q1 q2 : lot_id) (A B C : task)
    (result : Outcome) : M (list task) :=
  let! _ := park q1 A in
  let! _ := park q1 B in
  let! _ := park q2 C in
  let! _ := repark q1 (PLot q2) ALL in
  unpark q2 ALL result.

(** ** Notions used in the further properties *)

(** Every ticket in the store has been deposited, and no two tickets
    carry the same sequence number. *)
Record ids_ok (s : state) : Prop := {
  ids_deposited : ∀ tr t,
    tickets s !! tr = Some t → is_Some (t_idx t) ∧ is_Some (t_lot t);
  ids_injective : ∀ tr tr' t t' k,
    tickets s !! tr = Some t → tickets s !! tr' = Some t' →
    t_idx t = Some k → t_idx t' = Some k → tr = tr'
}.

(** The ticket [tr] is in the table of some lot. *)
Definition parked_somewhere (s : state) (tr : tref) : Prop :=
  ∃ q k, (k, tr) ∈ parked s q.

(** * Proofs *)

(** ** Running a computation *)

Lemma bind_ok {A B} (m : M A) (f : A → M B) s a s' :
  m s = (Ok a, s') → bind m f s = f a s'.
Proof. unfold bind. by intros ->. Qed.

Lemma bind_raise {A B} (m : M A) (f : A → M B) s e s' :
  m s = (Raise e, s') → bind m f s = (Raise e, s').
Proof. unfold bind. by intros ->. Qed.

Lemma load_run tr t s : tickets s !! tr = Some t → load tr s = (Ok t, s).
Proof. unfold load. by intros ->. Qed.

Lemma load_task_run tr t s :
  tickets s !! tr = Some t →
  (let! t := load tr in ret (t_task t)) s = (Ok (t_task t), s).
Proof. intros Ht. by rewrite (bind_ok _ _ _ _ _ (load_run _ _ _ Ht)). Qed.

Lemma popitem_run q k tr d s :
  parked s q = (k, tr) :: d →
  parked_popitem_first q s = (Ok tr, set_parked q d s).
Proof. unfold parked_popitem_first. by intros ->. Qed.

Lemma popitem_empty q s :
  parked s q = [] → parked_popitem_first q s = (Raise KeyError, s).
Proof. unfold parked_popitem_first. by intros ->. Qed.

(** ** The table as a sorted dictionary *)

Section sorted_dict.
Import SortedDict.
Implicit Types (d : SortedDict.t) (k : nat) (v : tref).

Lemma ascending_nil : ascending [].
Proof. constructor. Qed.

Lemma ascending_cons k v d :
  ascending ((k, v) :: d) ↔ ascending d ∧ Forall (λ kv, k < kv.1) d.
Proof.
  unfold ascending, keys. rewrite fmap_cons, StronglySorted_cons. simpl.
  rewrite Forall_fmap. apply and_comm.
Qed.

Lemma ascending_sublist d d' :
  d' `sublist_of` d → ascending d → ascending d'.
Proof.
  induction 1 as [|[k v] d1 d2 Hsub IH|[k v] d1 d2 Hsub IH]; [done|..].
  - rewrite !ascending_cons. intros [Hd HF]. split; [by apply IH|].
    eapply Forall_impl with (P := λ kv, k < kv.1); [|done].
    rewrite Forall_forall in HF |- *. intros kv Hin. apply HF.
    by eapply sublist_subseteq.
  - rewrite ascending_cons. intros [Hd _]. by apply IH.
Qed.

Lemma ascending_snoc k v d :
  ascending d → Forall (λ kv, kv.1 < k) d → ascending (d ++ [(k, v)]).
Proof.
  induction d as [|[k' v'] d IH]; simpl.
  - intros _ _. apply ascending_cons. split; [apply ascending_nil|constructor].
  - rewrite !ascending_cons, Forall_cons. simpl. intros [Hd HF] [Hlt Hall].
    split; [by apply IH|].
    apply Forall_app. split; [done|]. by repeat constructor.
Qed.

Lemma ascending_NoDup d : ascending d → NoDup (keys d).
Proof.
  induction d as [|[k v] d IH]; [constructor|].
  rewrite ascending_cons. intros [Hd HF]. unfold keys in *.
  rewrite fmap_cons. constructor; [|by apply IH].
  rewrite list_elem_of_fmap. intros [[k' v'] [Heq Hin]].
  rewrite Forall_forall in HF. specialize (HF _ Hin). simpl in *. lia.
Qed.

(** Writing under a key above all present ones appends the entry. *)
Lemma setitem_last k v d :
  Forall (λ kv, kv.1 < k) d → setitem k v d = d ++ [(k, v)].
Proof.
  induction d as [|[k' v'] d IH]; [done|].
  rewrite Forall_cons. simpl. intros [Hlt Hall].
  destruct (decide (k < k')); [lia|].
  destruct (decide (k = k')); [lia|].
  by rewrite IH.
Qed.

Lemma delitem_sublist k d d' : delitem k d = Some d' → d' `sublist_of` d.
Proof.
  revert d'. induction d as [|[k' v'] d IH]; intros d'; simpl; [done|].
  destruct (decide (k = k')).
  - intros [= <-]. by apply sublist_cons.
  - destruct (delitem k d) as [d''|]; [|done].
    intros [= <-]. apply sublist_skip. by apply IH.
Qed.

Lemma filter_keeps_all (P : nat * tref → Prop) `{!∀ x, Decision (P x)} d :
  Forall P d → filter P d = d.
Proof.
  induction 1 as [|x d HP _ IH]; [done|].
  by rewrite filter_cons_True, IH.
Qed.

(** Deleting a key that is present removes exactly its entry. *)
Lemma delitem_present k v d :
  ascending d → (k, v) ∈ d →
  delitem k d = Some (filter (λ kv : nat * tref, kv.1 ≠ k) d).
Proof.
  induction d as [|[k' v'] d IH]; [by intros _ ?%elem_of_nil|].
  rewrite ascending_cons, elem_of_cons. intros [Hd HF] Hin. simpl.
  destruct (decide (k = k')) as [->|Hne].
  - rewrite filter_cons_False by (simpl; intros ?; done).
    f_equal. symmetry. apply filter_keeps_all.
    eapply Forall_impl; [exact HF|]. simpl. intros; lia.
  - rewrite filter_cons_True by (simpl; congruence).
    destruct Hin as [[= ? ?]|Hin]; [done|].
    by rewrite IH.
Qed.

(** Deleting a key that is absent raises [KeyError]. *)
Lemma delitem_absent k d : k ∉ keys d → delitem k d = None.
Proof.
  induction d as [|[k' v'] d IH]; [done|].
  unfold keys in *. rewrite fmap_cons, not_elem_of_cons. simpl.
  intros [Hne Hnin]. rewrite decide_False by done. by rewrite IH.
Qed.

End sorted_dict.

(** ** The invariant of the store *)

Lemma parked_set_parked q d s q' :
  parked (set_parked q d s) q' = if decide (q = q') then d else parked s q'.
Proof.
  unfold parked, set_parked. simpl. rewrite lookup_insert.
  by destruct (decide (q = q')).
Qed.

Lemma parked_set_parked_eq q d s : parked (set_parked q d s) q = d.
Proof. rewrite parked_set_parked. by rewrite decide_True. Qed.

Lemma parked_set_parked_ne q d s q' :
  q ≠ q' → parked (set_parked q d s) q' = parked s q'.
Proof. intros. rewrite parked_set_parked. by rewrite decide_False. Qed.

Lemma wf_init : wf init.
Proof.
  split.
  - intros q. apply ascending_nil.
  - intros q k tr. unfold parked. simpl. rewrite lookup_empty. simpl.
    by intros ?%elem_of_nil.
  - intros tr t k. simpl. by rewrite lookup_nil.
Qed.

Lemma wf_below s q k tr : wf s → (k, tr) ∈ parked s q → k < counter s.
Proof.
  intros Hwf Hin. destruct (wf_owner s Hwf q k tr Hin) as [t Ht].
  by apply (wf_idx s Hwf tr _ k Ht).
Qed.

Lemma wf_below_all s q : wf s → Forall (λ kv, kv.1 < counter s) (parked s q).
Proof.
  intros Hwf. apply Forall_forall. intros [k tr] Hin. simpl.
  by eapply wf_below.
Qed.

(** Taking entries out of a table keeps the invariant. *)
Lemma wf_set_parked_sublist s q d :
  wf s → d `sublist_of` parked s q → wf (set_parked q d s).
Proof.
  intros Hwf Hsub. split.
  - intros q'. rewrite parked_set_parked. destruct (decide (q = q')).
    + eapply ascending_sublist; [done|]. apply Hwf.
    + apply Hwf.
  - intros q' k tr. rewrite parked_set_parked. destruct (decide (q = q')) as [<-|].
    + intros Hin. apply (wf_owner s Hwf q). by eapply sublist_subseteq.
    + apply Hwf.
  - apply Hwf.
Qed.

(** A ticket sits in at most one place. *)
Lemma wf_unique_place s q q' k k' tr :
  wf s → (k, tr) ∈ parked s q → (k', tr) ∈ parked s q' → q = q' ∧ k = k'.
Proof.
  intros Hwf H1 H2.
  destruct (wf_owner s Hwf _ _ _ H1) as [t1 Ht1].
  destruct (wf_owner s Hwf _ _ _ H2) as [t2 Ht2].
  rewrite Ht1 in Ht2. by injection Ht2 as _ -> ->.
Qed.

(** The ticket popped from the front of a table is then in no table. *)
Lemma wf_popped_floating s q k tr d :
  wf s → parked s q = (k, tr) :: d → floating (set_parked q d s) tr.
Proof.
  intros Hwf Hq q' k' Hin. rewrite parked_set_parked in Hin.
  assert (Hhd : (k, tr) ∈ parked s q) by (rewrite Hq; left).
  destruct (decide (q = q')) as [<-|Hne].
  - assert (Hin' : (k', tr) ∈ parked s q) by (rewrite Hq; by right).
    destruct (wf_unique_place s q q k k' tr Hwf Hhd Hin') as [_ <-].
    pose proof (wf_ascending s Hwf q) as Hasc. rewrite Hq in Hasc.
    apply ascending_cons in Hasc as [_ HF].
    rewrite Forall_forall in HF. specialize (HF _ Hin). simpl in HF. lia.
  - by destruct (wf_unique_place s q q' k k' tr Hwf Hhd Hin) as [? _].
Qed.

(** ** Depositing a ticket *)

Lemma deposit_run q tr t s :
  tickets s !! tr = Some t →
  _deposit_ticket q tr s = (Ok tt, deposited q tr t s).
Proof.
  intros Ht. pose proof (lookup_lt_Some _ _ _ Ht) as Hlt.
  unfold _deposit_ticket, bind, next_counter, store_idx, store_lot,
    parked_setitem, deposited. simpl.
  rewrite Ht. simpl. rewrite list_lookup_insert_eq by done. simpl.
  by rewrite list_insert_insert_eq.
Qed.

Lemma parked_deposited q tr t s q' :
  wf s →
  parked (deposited q tr t s) q' =
    if decide (q = q') then parked s q ++ [(counter s, tr)] else parked s q'.
Proof.
  intros Hwf. unfold deposited, parked at 1. simpl. rewrite lookup_insert.
  destruct (decide (q = q')); [|done]. simpl.
  apply setitem_last. by apply wf_below_all.
Qed.

Lemma wf_deposited q tr t s :
  wf s → tickets s !! tr = Some t → floating s tr → wf (deposited q tr t s).
Proof.
  intros Hwf Ht Hfl. pose proof (lookup_lt_Some _ _ _ Ht) as Hlt. split.
  - intros q'. rewrite parked_deposited by done.
    destruct (decide (q = q')); [|apply Hwf].
    apply ascending_snoc; [apply Hwf|by apply wf_below_all].
  - intros q' k tr'. rewrite parked_deposited by done.
    assert (Hold : ∀ q0, (k, tr') ∈ parked s q0 →
      ∃ t0, tickets (deposited q tr t s) !! tr' = Some (Ticket t0 (Some k) (Some q0))).
    { intros q0 Hin. destruct (wf_owner s Hwf _ _ _ Hin) as [t0 Ht0].
      exists t0. simpl. rewrite list_lookup_insert_ne; [done|].
      intros ->. by apply (Hfl q0 k). }
    destruct (decide (q = q')) as [<-|]; [|apply Hold].
    rewrite elem_of_app, list_elem_of_singleton.
    intros [Hin|[= -> ->]]; [by apply Hold|].
    exists (t_task t). simpl. by rewrite list_lookup_insert_eq.
  - intros tr' t' k. simpl.
    destruct (decide (tr = tr')) as [<-|Hne].
    + rewrite list_lookup_insert_eq by done. intros [= <-]. simpl.
      intros [= <-]. lia.
    + rewrite list_lookup_insert_ne by done. intros Ht' Hk.
      pose proof (wf_idx s Hwf _ _ _ Ht' Hk). lia.
Qed.

(** ** park *)

Lemma wf_new_ticket t s :
  wf s →
  wf (set_tickets (tickets s ++ [Ticket t None None]) s) ∧
  floating (set_tickets (tickets s ++ [Ticket t None None]) s) (length (tickets s)).
Proof.
  intros Hwf. split; [split|].
  - apply Hwf.
  - intros q k tr Hin. destruct (wf_owner s Hwf _ _ _ Hin) as [t0 Ht0].
    exists t0. simpl. by apply lookup_app_l_Some.
  - intros tr t' k. simpl. intros Ht' Hk.
    apply lookup_app_Some in Ht' as [Ht'|[_ Ht']].
    + by eapply (wf_idx s Hwf).
    + apply list_lookup_singleton_Some in Ht' as [_ <-]. done.
  - intros q k Hin. change (parked (set_tickets _ s) q) with (parked s q) in Hin.
    destruct (wf_owner s Hwf _ _ _ Hin) as [t0 Ht0].
    apply lookup_lt_Some in Ht0. lia.
Qed.

Lemma park_run q t s :
  wf s → park q t s = (Ok (length (tickets s)), parked_by q t s).
Proof.
  intros Hwf. unfold park, bind, new_ticket at 1.
  rewrite (deposit_run _ _ (Ticket t None None)).
  2:{ simpl. by rewrite lookup_app_r, Nat.sub_diag. }
  unfold ret. f_equal. unfold deposited, parked_by. simpl.
  change (parked (set_tickets _ s) q) with (parked s q).
  rewrite setitem_last by (by apply wf_below_all).
  f_equal. rewrite insert_app_r_alt, Nat.sub_diag by done. done.
Qed.

Lemma wf_parked_by q t s : wf s → wf (parked_by q t s).
Proof.
  intros Hwf. destruct (wf_new_ticket t s Hwf) as [Hwf' Hfl].
  pose proof (wf_deposited q (length (tickets s)) (Ticket t None None) _ Hwf') as H.
  pose proof (park_run q t s Hwf) as Hrun.
  unfold park, bind, new_ticket at 1 in Hrun.
  rewrite (deposit_run _ _ (Ticket t None None)) in Hrun.
  2:{ simpl. by rewrite lookup_app_r, Nat.sub_diag. }
  unfold ret in Hrun. apply (f_equal snd) in Hrun. cbn [snd] in Hrun.
  rewrite <- Hrun. apply H; [|done].
  simpl. by rewrite lookup_app_r, Nat.sub_diag.
Qed.

Lemma parked_parked_by q t s q' :
  parked (parked_by q t s) q' =
    if decide (q = q') then parked s q ++ [(counter s, length (tickets s))]
    else parked s q'.
Proof.
  unfold parked_by, parked at 1. simpl. rewrite lookup_insert.
  by destruct (decide (q = q')).
Qed.

(** ** The pop loop *)

Lemma pop_count_le c size : pop_count c size ≤ size.
Proof. destruct c; simpl; lia. Qed.

Lemma pop_several_run {A} q c (body : tref → M A) s :
  _pop_several q c body s = pop_loop q (pop_count c (length (parked s q))) body s.
Proof.
  unfold _pop_several, pop_bound, bind, parked_len, ret, SortedDict.len.
  destruct c; simpl; [|done].
  by rewrite Z.min_id, Nat2Z.id.
Qed.

Lemma tasks_of_cons s tr trs t :
  task_of s tr = Some t → tasks_of s (tr :: trs) = t :: tasks_of s trs.
Proof. unfold tasks_of. simpl. by intros ->. Qed.

Lemma tasks_of_app s trs1 trs2 :
  tasks_of s (trs1 ++ trs2) = tasks_of s trs1 ++ tasks_of s trs2.
Proof. apply omap_app. Qed.

Lemma tasks_of_ext s s' trs :
  (∀ tr, tr ∈ trs → task_of s' tr = task_of s tr) →
  tasks_of s' trs = tasks_of s trs.
Proof.
  intros Heq. unfold tasks_of. apply list_omap_ext.
  induction trs as [|tr trs IH]; constructor.
  - apply Heq. left.
  - apply IH. intros tr' Hin. apply Heq. by right.
Qed.

Lemma wf_task_of s q k tr :
  wf s → (k, tr) ∈ parked s q → is_Some (task_of s tr).
Proof.
  intros Hwf Hin. destruct (wf_owner s Hwf _ _ _ Hin) as [t Ht].
  unfold task_of. rewrite Ht. by eexists.
Qed.

(** In a well-formed state every entry of a table yields a task. *)
Lemma wf_tasks_length s q d :
  wf s → d ⊆ parked s q → length (tasks_of s d.*2) = length d.
Proof.
  intros Hwf. induction d as [|[k tr] d IH]; [done|]. intros Hsub.
  destruct (wf_task_of s q k tr Hwf) as [t Ht]; [apply Hsub; left|].
  rewrite fmap_cons. rewrite (tasks_of_cons _ _ _ t Ht). simpl.
  f_equal. apply IH. intros x Hx. apply Hsub. by right.
Qed.

Lemma lot_tasks_length s q :
  wf s → length (lot_tasks s q) = length (parked s q).
Proof. intros Hwf. by apply (wf_tasks_length s q). Qed.

(** The loop of [unpark]: [n] pops, reading the task of each ticket. *)
Lemma unpark_loop_run q n s :
  wf s → n ≤ length (parked s q) →
  ∃ s',
    pop_loop q n (λ ticket, let! t := load ticket in ret (t_task t)) s
      = (Ok (take n (lot_tasks s q)), s') ∧
    wf s' ∧ same_but_table q s s' ∧
    parked s' q = drop n (parked s q).
Proof.
  revert s. induction n as [|n IH]; intros s Hwf Hn.
  { exists s. split; [done|]. split; [done|]. split; [by repeat split|done]. }
  destruct (parked s q) as [|[k tr] d] eqn:Hq; [simpl in Hn; lia|].
  assert (Hin : (k, tr) ∈ parked s q) by (rewrite Hq; left).
  destruct (wf_owner s Hwf _ _ _ Hin) as [t Ht].
  assert (Hpop : parked_popitem_first q s = (Ok tr, set_parked q d s))
    by (by apply (popitem_run q k)).
  assert (Hwf1 : wf (set_parked q d s)).
  { apply wf_set_parked_sublist; [done|]. rewrite Hq. by apply sublist_cons. }
  destruct (IH (set_parked q d s) Hwf1) as (s' & Hrun & Hwf' & Hsame & Hq').
  { rewrite parked_set_parked_eq. simpl in Hn. lia. }
  exists s'. split; [|split; [done|split]].
  - simpl. rewrite (bind_ok _ _ _ _ _ Hpop).
    rewrite (bind_ok _ _ _ _ _ (load_task_run tr _ (set_parked q d s) Ht)).
    rewrite (bind_ok _ _ _ _ _ Hrun). unfold ret. simpl.
    do 2 f_equal. unfold lot_tasks. rewrite Hq, fmap_cons.
    rewrite (tasks_of_cons _ _ _ t) by (unfold task_of; simpl; by rewrite Ht).
    simpl. f_equal. by rewrite parked_set_parked_eq.
  - destruct Hsame as (Hc & Ht' & Hr & Hother). repeat split; try done.
    intros q' Hne. rewrite Hother by done. by rewrite parked_set_parked_ne.
  - by rewrite Hq', parked_set_parked_eq.
Qed.

(** Rescheduling a list of tasks appends them to the run queue in order. *)
Lemma for_each_reschedule tasks result s :
  for_each tasks (λ t, reschedule t result) s
    = (Ok tt, set_runq (runq s ++ map (λ t, (t, result)) tasks) s).
Proof.
  revert s. induction tasks as [|t tasks IH]; intros s; simpl.
  - unfold ret, set_runq. rewrite app_nil_r. by destruct s.
  - unfold bind, reschedule. rewrite IH. unfold set_runq. simpl.
    by rewrite <- app_assoc.
Qed.

Lemma wf_set_runq r s : wf s → wf (set_runq r s).
Proof. intros [H1 H2 H3]. by split. Qed.

(** ** unpark *)

Lemma unpark_run q c result s :
  wf s →
  ∃ s',
    unpark q c result s
      = (Ok (take (pop_count c (length (parked s q))) (lot_tasks s q)), s') ∧
    wf s' ∧
    counter s' = counter s ∧ tickets s' = tickets s ∧
    runq s' = runq s ++
      map (λ t, (t, result)) (take (pop_count c (length (parked s q))) (lot_tasks s q)) ∧
    parked s' q = drop (pop_count c (length (parked s q))) (parked s q) ∧
    ∀ q', q ≠ q' → parked s' q' = parked s q'.
Proof.
  intros Hwf.
  destruct (unpark_loop_run q (pop_count c (length (parked s q))) s Hwf
              (pop_count_le _ _))
    as (s1 & Hrun & Hwf1 & (Hc & Ht & Hr & Hother) & Hq).
  eexists. split; [|split; [|split; [|split; [|split; [|split]]]]].
  - rewrite <- pop_several_run in Hrun. unfold unpark.
    rewrite (bind_ok _ _ _ _ _ Hrun).
    rewrite (bind_ok _ _ _ _ _ (for_each_reschedule _ _ _)). done.
  - by apply wf_set_runq.
  - done.
  - done.
  - simpl. by rewrite Hr.
  - done.
  - done.
Qed.

(** ** repark *)

Lemma task_of_deposited q tr t s tr' :
  tickets s !! tr = Some t →
  task_of (deposited q tr t s) tr' = task_of s tr'.
Proof.
  intros Ht. pose proof (lookup_lt_Some _ _ _ Ht). unfold task_of. simpl.
  destruct (decide (tr = tr')) as [<-|].
  - rewrite list_lookup_insert_eq by done. by rewrite Ht.
  - by rewrite list_lookup_insert_ne.
Qed.

(** The loop of [repark]: [n] times, pop a ticket from [q1] and deposit
    it in [q2].  The lots may be one and the same. *)
Lemma repark_loop_run q1 q2 n s :
  wf s → n ≤ length (parked s q1) →
  ∃ s',
    pop_loop q1 n (call_deposit_ticket (PLot q2)) s = (Ok (replicate n tt), s') ∧
    wf s' ∧ counter s' = counter s + n ∧ runq s' = runq s ∧
    (∀ tr, task_of s' tr = task_of s tr) ∧
    ∀ q', parked s' q' =
      (if decide (q' = q1) then drop n (parked s q') else parked s q') ++
      (if decide (q' = q2) then moved s q1 n else []).
Proof.
  revert s. induction n as [|n IH]; intros s Hwf Hn.
  { exists s. split; [done|]. split; [done|]. split; [lia|].
    split; [done|]. split; [done|]. intros q'. unfold moved. simpl.
    destruct (decide (q' = q1)), (decide (q' = q2)); by rewrite app_nil_r. }
  destruct (parked s q1) as [|[k tr] d] eqn:Hq; [simpl in Hn; lia|].
  assert (Hin : (k, tr) ∈ parked s q1) by (rewrite Hq; left).
  destruct (wf_owner s Hwf _ _ _ Hin) as [t Ht].
  assert (Hpop : parked_popitem_first q1 s = (Ok tr, set_parked q1 d s))
    by (by apply (popitem_run q1 k)).
  set (s1 := set_parked q1 d s) in *.
  assert (Hwf1 : wf s1).
  { apply wf_set_parked_sublist; [done|]. rewrite Hq. by apply sublist_cons. }
  assert (Hfl : floating s1 tr) by (by apply (wf_popped_floating s q1 k)).
  assert (Ht1 : tickets s1 !! tr = Some (Ticket t (Some k) (Some q1))) by done.
  pose proof (deposit_run q2 tr _ s1 Ht1) as Hdep.
  set (s2 := deposited q2 tr (Ticket t (Some k) (Some q1)) s1) in *.
  assert (Hwf2 : wf s2) by (by apply wf_deposited).
  assert (Hp2 : ∀ q', parked s2 q' =
    (if decide (q' = q1) then d else parked s q') ++
    (if decide (q' = q2) then [(counter s, tr)] else [])).
  { intros q'. unfold s2. rewrite parked_deposited by done.
    unfold s1. rewrite !parked_set_parked. simpl.
    repeat case_decide; subst; try done; by rewrite ?app_nil_r. }
  assert (Hlen : n ≤ length d) by (simpl in Hn; lia).
  destruct (IH s2 Hwf2) as (s' & Hrun & Hwf' & Hc & Hr & Htask & Hp).
  { rewrite Hp2, decide_True, length_app by done. lia. }
  assert (Htake : take n (parked s2 q1) = take n d).
  { rewrite Hp2, decide_True by done. by apply take_app_le. }
  exists s'. split; [|split; [done|split; [|split; [done|split]]]].
  - simpl. rewrite (bind_ok _ _ _ _ _ Hpop).
    rewrite (bind_ok _ _ _ _ _ Hdep), (bind_ok _ _ _ _ _ Hrun). done.
  - rewrite Hc. simpl. lia.
  - intros tr'. rewrite Htask. unfold s2. by rewrite task_of_deposited.
  - intros q'. rewrite Hp, !Hp2. unfold moved. rewrite Htake, Hq. simpl.
    destruct (decide (q' = q1)) as [Heq1|], (decide (q' = q2)) as [Heq2|].
    + rewrite Heq1, Hq. simpl. rewrite drop_app_le by done.
      by rewrite <- app_assoc.
    + rewrite Heq1, Hq. simpl. by rewrite !app_nil_r.
    + by rewrite <- app_assoc.
    + by rewrite !app_nil_r.
Qed.

Lemma repark_run q1 q2 c s :
  wf s →
  ∃ s',
    repark q1 (PLot q2) c s = (Ok tt, s') ∧
    wf s' ∧
    counter s' = counter s + pop_count c (length (parked s q1)) ∧
    runq s' = runq s ∧
    (∀ tr, task_of s' tr = task_of s tr) ∧
    ∀ q', parked s' q' =
      (if decide (q' = q1)
       then drop (pop_count c (length (parked s q1))) (parked s q')
       else parked s q') ++
      (if decide (q' = q2)
       then moved s q1 (pop_count c (length (parked s q1)))
       else []).
Proof.
  intros Hwf.
  destruct (repark_loop_run q1 q2 (pop_count c (length (parked s q1))) s Hwf
              (pop_count_le _ _)) as (s' & Hrun & Hrest).
  exists s'. split; [|done].
  rewrite <- pop_several_run in Hrun. unfold repark. simpl.
  by rewrite (bind_ok _ _ _ _ _ Hrun).
Qed.

(** ** The abort closure *)

Lemma abort_run s q k tr :
  wf s → (k, tr) ∈ parked s q →
  abort tr s =
    (Ok SUCCEEDED,
     set_parked q (filter (λ kv : nat * tref, kv.1 ≠ k) (parked s q)) s).
Proof.
  intros Hwf Hin. destruct (wf_owner s Hwf _ _ _ Hin) as [t Ht].
  unfold abort. rewrite (bind_ok _ _ _ _ _ (load_run _ _ _ Ht)). simpl.
  unfold bind, parked_delitem.
  by rewrite (delitem_present k tr) by (done || apply Hwf).
Qed.

Lemma wf_abort tr s : wf s → wf (abort tr s).2.
Proof.
  intros Hwf. unfold abort, bind, load.
  destruct (tickets s !! tr) as [[t [k|] [q|]]|]; simpl; try done.
  unfold parked_delitem.
  destruct (SortedDict.delitem k (parked s q)) as [d|] eqn:Hd; simpl; [|done].
  apply wf_set_parked_sublist; [done|]. by eapply delitem_sublist.
Qed.

(** ** Every reachable state is well formed *)

Lemma wf_step o s : wf s → wf (step o s).
Proof.
  intros Hwf. destruct o as [q t|q c r|tr|q v c]; simpl.
  - rewrite park_run by done. by apply wf_parked_by.
  - destruct (unpark_run q c r s Hwf) as (s' & -> & Hwf' & _). done.
  - by apply wf_abort.
  - destruct v as [| | |q2]; try done.
    destruct (repark_run q q2 c s Hwf) as (s' & -> & Hwf' & _). done.
Qed.

Lemma wf_run ops s : wf s → wf (run ops s).
Proof.
  revert s. induction ops as [|o ops IH]; intros s Hwf; [done|].
  simpl. apply IH. by apply wf_step.
Qed.

Lemma reachable_wf s : reachable s → wf s.
Proof. intros [ops ->]. apply wf_run, wf_init. Qed.

Lemma reachable_init : reachable init.
Proof. by exists []. Qed.

Lemma run_app ops1 ops2 s : run (ops1 ++ ops2) s = run ops2 (run ops1 s).
Proof. apply foldl_app. Qed.

Lemma reachable_step o s : reachable s → reachable (step o s).
Proof.
  intros [ops ->]. exists (ops ++ [o]). by rewrite run_app.
Qed.

(** ** The tasks of a lot under park and repark *)

Lemma wf_all_tasks s q :
  wf s → Forall (λ tr, is_Some (task_of s tr)) (parked s q).*2.
Proof.
  intros Hwf. apply Forall_fmap, Forall_forall. intros [k tr] Hin. simpl.
  by eapply wf_task_of.
Qed.

Lemma tasks_of_take s n trs :
  Forall (λ tr, is_Some (task_of s tr)) trs →
  tasks_of s (take n trs) = take n (tasks_of s trs).
Proof.
  intros Hall. revert n. induction Hall as [|tr trs [t Ht] _ IH]; intros n.
  - by destruct n.
  - destruct n as [|n]; [done|]. rewrite firstn_cons.
    rewrite !(tasks_of_cons _ _ _ t Ht), firstn_cons. by rewrite IH.
Qed.

Lemma lot_tasks_take s q n :
  wf s → tasks_of s (take n (parked s q)).*2 = take n (lot_tasks s q).
Proof.
  intros Hwf. rewrite fmap_take. apply tasks_of_take. by apply wf_all_tasks.
Qed.

Lemma lot_tasks_parked_by q t s q' :
  wf s →
  lot_tasks (parked_by q t s) q' =
    if decide (q = q') then lot_tasks s q ++ [t] else lot_tasks s q'.
Proof.
  intros Hwf. unfold lot_tasks. rewrite parked_parked_by.
  assert (Hold : ∀ q0, tasks_of (parked_by q t s) (parked s q0).*2
                       = tasks_of s (parked s q0).*2).
  { intros q0. apply tasks_of_ext. intros tr [[k tr'] [-> Hin]]%list_elem_of_fmap.
    destruct (wf_owner s Hwf _ _ _ Hin) as [t0 Ht0].
    unfold task_of. simpl. by rewrite (lookup_app_l_Some _ _ _ _ Ht0), Ht0. }
  destruct (decide (q = q')); [|apply Hold].
  rewrite fmap_app, tasks_of_app, Hold. f_equal. simpl.
  apply (tasks_of_cons _ _ [] t). unfold task_of. simpl.
  by rewrite lookup_app_r, Nat.sub_diag.
Qed.

Lemma park_each_cons q t ts s :
  wf s →
  park_each q (t :: ts) s =
    (let! trs := park_each q ts in ret (length (tickets s) :: trs))
      (parked_by q t s).
Proof.
  intros Hwf. simpl. by rewrite (bind_ok _ _ _ _ _ (park_run q t s Hwf)).
Qed.

Lemma park_each_run q ts s :
  wf s →
  ∃ trs s1,
    park_each q ts s = (Ok trs, s1) ∧ length trs = length ts ∧
    wf s1 ∧ runq s1 = runq s ∧
    lot_tasks s1 q = lot_tasks s q ++ ts ∧
    ∀ q', q ≠ q' → parked s1 q' = parked s q'.
Proof.
  revert s. induction ts as [|t ts IH]; intros s Hwf.
  { exists [], s. by rewrite app_nil_r. }
  destruct (IH (parked_by q t s) (wf_parked_by q t s Hwf))
    as (trs & s1 & Hrun & Hlen & Hwf1 & Hr & Htasks & Hother).
  exists (length (tickets s) :: trs), s1.
  split; [|split; [simpl; by rewrite Hlen|split; [done|split; [done|split]]]].
  - simpl. rewrite (bind_ok _ _ _ _ _ (park_run q t s Hwf)).
    by rewrite (bind_ok _ _ _ _ _ Hrun).
  - rewrite Htasks, lot_tasks_parked_by, decide_True by done.
    by rewrite <- app_assoc.
  - intros q' Hne. rewrite Hother by done.
    by rewrite parked_parked_by, decide_False.
Qed.

Lemma lot_tasks_nil s q : parked s q = [] → lot_tasks s q = [].
Proof. unfold lot_tasks. by intros ->. Qed.

Lemma unpark_all_run q c result s :
  wf s → pop_count c (length (parked s q)) = length (parked s q) →
  ∃ s',
    unpark q c result s = (Ok (lot_tasks s q), s') ∧
    wf s' ∧ counter s' = counter s ∧ tickets s' = tickets s ∧
    runq s' = runq s ++ map (λ t, (t, result)) (lot_tasks s q) ∧
    parked s' q = [] ∧
    ∀ q', q ≠ q' → parked s' q' = parked s q'.
Proof.
  intros Hwf Hn.
  destruct (unpark_run q c result s Hwf) as (s' & Hun & Hwf' & Hc & Ht & Hr & Hq & Ho).
  rewrite Hn in Hun, Hr, Hq. rewrite <- (lot_tasks_length s q Hwf) in Hun, Hr.
  rewrite firstn_all in Hun, Hr. rewrite drop_all in Hq.
  by exists s'.
Qed.

(** [repark] between two different lots. *)
Lemma repark_run_distinct q1 q2 c s :
  wf s → q1 ≠ q2 →
  ∃ s',
    repark q1 (PLot q2) c s = (Ok tt, s') ∧
    wf s' ∧
    counter s' = counter s + pop_count c (length (parked s q1)) ∧
    runq s' = runq s ∧
    parked s' q1 = drop (pop_count c (length (parked s q1))) (parked s q1) ∧
    parked s' q2 =
      parked s q2 ++ moved s q1 (pop_count c (length (parked s q1))) ∧
    lot_tasks s' q2 =
      lot_tasks s q2 ++ take (pop_count c (length (parked s q1))) (lot_tasks s q1) ∧
    ∀ q', q' ≠ q1 → q' ≠ q2 → parked s' q' = parked s q'.
Proof.
  intros Hwf Hne.
  destruct (repark_run q1 q2 c s Hwf) as (s' & Hrun & Hwf' & Hc & Hr & Htask & Hp).
  exists s'. split; [done|]. split; [done|]. split; [done|]. split; [done|].
  assert (Hq1 : parked s' q1 =
    drop (pop_count c (length (parked s q1))) (parked s q1)).
  { rewrite Hp, decide_True, decide_False by done. apply app_nil_r. }
  assert (Hq2 : parked s' q2 =
    parked s q2 ++ moved s q1 (pop_count c (length (parked s q1)))).
  { rewrite Hp, decide_False, decide_True by done. done. }
  split; [done|]. split; [done|]. split.
  - unfold lot_tasks. rewrite Hq2, fmap_app, tasks_of_app.
    rewrite !(tasks_of_ext s s') by (intros; apply Htask).
    f_equal. unfold moved. rewrite snd_zip.
    + by apply lot_tasks_take.
    + rewrite length_seq, length_fmap, length_take. lia.
  - intros q' H1 H2. rewrite Hp, !decide_False by done. apply app_nil_r.
Qed.

Lemma moved_keys s q n :
  n ≤ length (parked s q) → SortedDict.keys (moved s q n) = seq (counter s) n.
Proof.
  intros Hn. unfold SortedDict.keys, moved. apply fst_zip.
  rewrite length_seq, length_fmap, length_take. lia.
Qed.

Lemma moved_values s q n :
  SortedDict.values (moved s q n) = SortedDict.values (take n (parked s q)).
Proof.
  unfold SortedDict.values, moved. apply snd_zip.
  rewrite length_seq, length_fmap, length_take. lia.
Qed.

Lemma tasks_of_drop s n trs :
  Forall (λ tr, is_Some (task_of s tr)) trs →
  tasks_of s (drop n trs) = drop n (tasks_of s trs).
Proof.
  intros Hall. revert n. induction Hall as [|tr trs [t Ht] _ IH]; intros n.
  - by destruct n.
  - destruct n as [|n]; [done|]. rewrite skipn_cons.
    rewrite (tasks_of_cons _ _ _ t Ht), skipn_cons. by rewrite IH.
Qed.

Lemma lot_tasks_drop s q n :
  wf s → tasks_of s (drop n (parked s q)).*2 = drop n (lot_tasks s q).
Proof.
  intros Hwf. rewrite fmap_drop. apply tasks_of_drop. by apply wf_all_tasks.
Qed.

(** ** The counter never goes back *)



(** ** The tickets of a table are pairwise distinct *)

Lemma wf_NoDup_values s q : wf s → NoDup (SortedDict.values (parked s q)).
Proof.
  intros Hwf.
  assert (Hsub : parked s q ⊆ parked s q) by done.
  pose proof (ascending_NoDup _ (wf_ascending s Hwf q)) as Hnd.
  revert Hsub Hnd. generalize (parked s q) at 1 3 4.
  unfold SortedDict.keys, SortedDict.values.
  induction l as [|[k tr] d IH]; [constructor|].
  rewrite !fmap_cons. simpl. intros Hsub [Hk Hnd]%NoDup_cons.
  constructor.
  - intros [[k' tr'] [Heq Hin]]%list_elem_of_fmap. simpl in Heq. subst tr'.
    destruct (wf_unique_place s q q k k' tr Hwf) as [_ <-].
    + apply Hsub. left.
    + apply Hsub. by right.
    + apply Hk. apply list_elem_of_fmap. by exists (k, tr).
  - apply IH; [|done]. intros x Hx. apply Hsub. by right.
Qed.

(** ** Cancelling a ticket that is in a table *)

Lemma filter_key_entry k tr (d : SortedDict.t) :
  ascending d → (k, tr) ∈ d →
  filter (λ e : nat * tref, e.1 ≠ k) d = filter (λ e, e ≠ (k, tr)) d.
Proof.
  intros Hasc Hin. pose proof (ascending_NoDup d Hasc) as Hnd.
  revert Hin Hnd. clear Hasc. unfold SortedDict.keys.
  induction d as [|[k' tr'] d IH]; [done|].
  rewrite fmap_cons. simpl. intros Hin [Hk Hnd]%NoDup_cons.
  assert (Hnot : k = k' → tr = tr').
  { intros <-. apply elem_of_cons in Hin as [[= ->]|Hin]; [done|].
    exfalso. apply Hk. apply list_elem_of_fmap. by exists (k, tr). }
  destruct (decide (k' = k)) as [->|Hne].
  - rewrite <- (Hnot eq_refl).
    rewrite !filter_cons_False by (simpl; intros ?; done).
    rewrite (filter_keeps_all (λ e, e.1 ≠ k)).
    2:{ apply Forall_forall. intros [k2 tr2] Hin2 Heq. simpl in Heq.
        subst k2. apply Hk. apply list_elem_of_fmap. by exists (k, tr2). }
    rewrite (filter_keeps_all (λ e, e ≠ (k, tr))); [done|].
    apply Forall_forall. intros [k2 tr2] Hin2 [= -> ->]. apply Hk.
    apply list_elem_of_fmap. by exists (k, tr).
  - rewrite !filter_cons_True by (simpl; congruence).
    f_equal. apply IH; [|done].
    apply elem_of_cons in Hin as [[= -> ->]|Hin]; done.
Qed.

Lemma abort_present q k tr s :
  wf s → (k, tr) ∈ parked s q →
  ∃ T s',
    tickets s !! tr = Some (Ticket T (Some k) (Some q)) ∧
    abort tr s = (Ok SUCCEEDED, s') ∧ wf s' ∧
    parked s' q = filter (λ e, e ≠ (k, tr)) (parked s q) ∧
    (∀ q', q ≠ q' → parked s' q' = parked s q') ∧
    tickets s' = tickets s ∧ counter s' = counter s ∧ runq s' = runq s.
Proof.
  intros Hwf Hin. destruct (wf_owner s Hwf _ _ _ Hin) as [T HT].
  exists T. eexists. split; [done|]. split; [by apply abort_run|].
  split.
  { apply wf_set_parked_sublist; [done|]. apply sublist_filter. }
  split.
  { rewrite parked_set_parked_eq. apply filter_key_entry; [apply Hwf|done]. }
  split; [|done]. intros q' Hne. by apply parked_set_parked_ne.
Qed.

(** [repark] of a lot to itself moves its first tickets to the back. *)
Lemma repark_same_lot q c s :
  wf s →
  ∃ s',
    repark q (PLot q) c s = (Ok tt, s') ∧
    parked s' q =
      drop (pop_count c (length (parked s q))) (parked s q) ++
      moved s q (pop_count c (length (parked s q))).
Proof.
  intros Hwf. destruct (repark_run q q c s Hwf) as (s' & Hrun & _ & _ & _ & _ & Hp).
  exists s'. split; [done|]. by rewrite Hp, !decide_True.
Qed.

(** ** The code on small inputs *)

Example park_three_unpark_all :
  (unpark 0 ALL (Value PNone) (run [Park 0 10; Park 0 11; Park 0 12] init)).1
  = Ok [10; 11; 12].
Proof. reflexivity. Qed.

Example park_three_tables :
  parked (run [Park 0 10; Park 1 11; Park 0 12] init) 0 = [(0, 0); (2, 2)] ∧
  parked (run [Park 0 10; Park 1 11; Park 0 12] init) 1 = [(1, 1)].
Proof. split; reflexivity. Qed.

Example repark_one_table :
  parked (run [Park 0 10; Park 0 11; Park 1 12; Repark 0 (PLot 1) (Count 1)] init) 1
  = [(2, 2); (3, 0)].
Proof. reflexivity. Qed.

Example abort_twice_raises :
  (abort 0 (run [Park 0 10; Cancel 0] init)).1 = Raise KeyError.
Proof. reflexivity. Qed.

Example unpark_empty_lot :
  (unpark 3 (Count 2) (Value PNone) init).1 = Ok [].
Proof. reflexivity. Qed.

(** * The properties of the lot *)

(** C1.  FIFO order.  In every reachable state, [unpark(count=ALL)] on
    a lot returns the tasks of all its entries, one per entry, in table
    order, which is the ascending order of their sequence numbers; it
    has rescheduled them in that order with the given result, and it
    leaves the lot empty.  And table order is arrival order: when the
    tasks [T1..Tn] park one after the other in a lot that holds no task,
    [unpark(count=ALL)] returns the list [[T1, ..., Tn]]. *)
Theorem unpark_all_fifo q ts result s :
  reachable s →
  (∃ s',
    unpark q ALL result s = (Ok (lot_tasks s q), s') ∧
    length (lot_tasks s q) = length (parked s q) ∧
    ascending (parked s q) ∧
    runq s' = runq s ++ map (λ t, (t, result)) (lot_tasks s q) ∧
    parked s' q = []) ∧
  (parked s q = [] →
   ∃ trs s1 s2,
    park_each q ts s = (Ok trs, s1) ∧
    length trs = length ts ∧
    unpark q ALL result s1 = (Ok ts, s2) ∧
    runq s2 = runq s ++ map (λ t, (t, result)) ts ∧
    parked s2 q = []).
Proof.
  intros Hwf%reachable_wf. split.
  { destruct (unpark_all_run q ALL result s Hwf eq_refl)
      as (s' & Hun & _ & _ & _ & Hr & Hq & _).
    exists s'. split; [done|]. split; [by apply lot_tasks_length|].
    split; [apply Hwf|]. done. }
  intros Hempty.
  destruct (park_each_run q ts s Hwf)
    as (trs & s1 & Hpark & Hlen & Hwf1 & Hr & Htasks & _).
  destruct (unpark_all_run q ALL result s1 Hwf1 eq_refl)
    as (s2 & Hun & _ & _ & _ & Hr2 & Hq2 & _).
  rewrite (lot_tasks_nil s q Hempty) in Htasks. simpl in Htasks.
  rewrite Htasks in Hun, Hr2.
  exists trs, s1, s2. split; [done|]. split; [done|]. split; [done|].
  split; [by rewrite Hr2, Hr|done].
Qed.

Lemma unpark_all_fifo_witness :
  reachable init ∧ parked init 0 = [] ∧
  ∃ trs s1 s2,
    park_each 0 [10; 11; 12] init = (Ok trs, s1) ∧
    length trs = 3 ∧
    unpark 0 ALL (Value PNone) s1 = (Ok [10; 11; 12], s2) ∧
    runq s2 = runq init ++ map (λ t, (t, Value PNone)) [10; 11; 12] ∧
    parked s2 0 = [].
Proof.
  split; [apply reachable_init|]. split; [reflexivity|].
  apply (unpark_all_fifo 0 [10; 11; 12] (Value PNone) init).
  - apply reachable_init.
  - reflexivity.
Defined.

(** C2.  Repark orders by transfer time.  For two different lots [Q1]
    and [Q2], [Q1.repark(Q2, count=c)] returns normally; it pops the
    first [n] tickets of [Q1], where [n] is the size of [Q1] for
    [count=ALL] and [min(c, size)] for an integer [c >= 0], and appends
    them to the table of [Q2] in the order they were popped, under the
    next [n] values of the counter, which are above every key of every
    table; no task is rescheduled.  So every task waiting in [Q2] stays
    ahead of every moved task, and after park A, park B in [Q1], park C
    in [Q2] and [Q1.repark(Q2)], [Q2.unpark()] returns [[C, A, B]]. *)
Theorem repark_moves_behind q1 q2 c s :
  reachable s → q1 ≠ q2 →
  let size := length (parked s q1) in
  let n := pop_count c size in
  (c = ALL → n = size) ∧
  (∀ z, c = Count z → (0 ≤ z)%Z → n = Nat.min (Z.to_nat z) size) ∧
  (∃ s',
    repark q1 (PLot q2) c s = (Ok tt, s') ∧
    runq s' = runq s ∧
    parked s' q1 = drop n (parked s q1) ∧
    parked s' q2 = parked s q2 ++ moved s q1 n ∧
    SortedDict.keys (moved s q1 n) = seq (counter s) n ∧
    SortedDict.values (moved s q1 n) = SortedDict.values (take n (parked s q1)) ∧
    (∀ q' k tr, (k, tr) ∈ parked s q' → k < counter s) ∧
    Forall (λ old, Forall (λ new, old.1 < new.1) (moved s q1 n)) (parked s q2) ∧
    lot_tasks s' q2 = lot_tasks s q2 ++ take n (lot_tasks s q1)) ∧
  (parked s q1 = [] → parked s q2 = [] →
   ∀ A B C result, ∃ s',
     repark_then_unpark q1 q2 A B C result s = (Ok [C; A; B], s')).
Proof.
  intros Hwf%reachable_wf Hne size n.
  split; [by intros ->|]. split; [intros z ->; unfold n; simpl; lia|].
  split.
  - destruct (repark_run_distinct q1 q2 c s Hwf Hne)
      as (s' & Hrun & _ & _ & Hr & Hq1 & Hq2 & Htasks & _).
    exists s'. repeat (split; [done|]).
    split; [apply moved_keys, pop_count_le|].
    split; [apply moved_values|].
    split; [intros q' k tr; by apply wf_below|]. split; [|done].
    apply Forall_forall. intros [k tr] Hin. apply Forall_forall.
    intros [k' tr'] Hin'. simpl.
    pose proof (wf_below s q2 k tr Hwf Hin).
    assert (Hk' : k' ∈ SortedDict.keys (moved s q1 n)).
    { unfold SortedDict.keys. apply list_elem_of_fmap. by exists (k', tr'). }
    rewrite moved_keys in Hk' by apply pop_count_le.
    apply elem_of_seq in Hk'. lia.
  - intros He1 He2 A B C result. unfold repark_then_unpark.
    set (s1 := parked_by q1 A s). set (s2 := parked_by q1 B s1).
    set (s3 := parked_by q2 C s2).
    assert (Hwf1 : wf s1) by (by apply wf_parked_by).
    assert (Hwf2 : wf s2) by (by apply wf_parked_by).
    assert (Hwf3 : wf s3) by (by apply wf_parked_by).
    rewrite (bind_ok _ _ _ _ _ (park_run q1 A s Hwf)).
    rewrite (bind_ok _ _ _ _ _ (park_run q1 B s1 Hwf1)).
    rewrite (bind_ok _ _ _ _ _ (park_run q2 C s2 Hwf2)).
    assert (Ht1 : lot_tasks s3 q1 = [A; B]).
    { unfold s3, s2, s1. rewrite !lot_tasks_parked_by by done.
      rewrite decide_False, !decide_True by done.
      by rewrite (lot_tasks_nil s q1 He1). }
    assert (Ht2 : lot_tasks s3 q2 = [C]).
    { unfold s3, s2, s1. rewrite !lot_tasks_parked_by by done.
      rewrite decide_True, !decide_False by done.
      by rewrite (lot_tasks_nil s q2 He2). }
    destruct (repark_run_distinct q1 q2 ALL s3 Hwf3 Hne)
      as (s4 & Hrun & Hwf4 & _ & _ & _ & _ & Htasks & _).
    rewrite (bind_ok _ _ _ _ _ Hrun).
    simpl in Htasks. rewrite <- (lot_tasks_length s3 q1 Hwf3) in Htasks.
    rewrite firstn_all, Ht1, Ht2 in Htasks.
    destruct (unpark_all_run q2 ALL result s4 Hwf4 eq_refl) as (s5 & Hun & _).
    exists s5. by rewrite Hun, Htasks.
Qed.

Lemma repark_moves_behind_witness :
  reachable (run [Park 0 7; Park 1 8] init) ∧ 0 ≠ 1 ∧
  ∃ s',
    repark 0 (PLot 1) (Count 3) (run [Park 0 7; Park 1 8] init) = (Ok tt, s') ∧
    lot_tasks s' 1 = [8; 7].
Proof.
  split; [by eexists|]. split; [done|].
  destruct (repark_moves_behind 0 1 (Count 3) (run [Park 0 7; Park 1 8] init))
    as (_ & _ & (s' & Hrun & _ & _ & _ & _ & _ & _ & _ & Htasks) & _).
  - by eexists.
  - done.
  - exists s'. split; [exact Hrun|exact Htasks].
Defined.

(** C3.  Cancellation removes exactly one ticket.  In a lot that holds
    no task, let [T1], [T2], [T3] park in that order, and let the abort
    closure of [T2] be called next.  The call returns [Abort.SUCCEEDED]
    and takes the entry of [T2]'s ticket, and nothing else, out of the
    table.  Then [unpark(count=ALL)] returns [[T1, T3]] and the length
    of the lot is 0. *)
Theorem cancel_removes_one q T1 T2 T3 result s :
  reachable s → parked s q = [] →
  ∃ tr1 tr2 tr3 e1 e2 e3 s3 s4 s5,
    park_each q [T1; T2; T3] s = (Ok [tr1; tr2; tr3], s3) ∧
    parked s3 q = [e1; e2; e3] ∧ e1.2 = tr1 ∧ e2.2 = tr2 ∧ e3.2 = tr3 ∧
    abort tr2 s3 = (Ok SUCCEEDED, s4) ∧
    parked s4 q = [e1; e3] ∧
    (∀ q', q ≠ q' → parked s4 q' = parked s3 q') ∧
    tickets s4 = tickets s3 ∧ runq s4 = runq s3 ∧
    unpark q ALL result s4 = (Ok [T1; T3], s5) ∧
    runq s5 = runq s ++ [(T1, result); (T3, result)] ∧
    __len__ q s5 = (Ok 0%Z, s5).
Proof.
  intros Hwf%reachable_wf He.
  pose proof (wf_parked_by q T1 s Hwf) as Hwf1.
  pose proof (wf_parked_by q T2 _ Hwf1) as Hwf2.
  pose proof (wf_parked_by q T3 _ Hwf2) as Hwf3.
  set (s3 := parked_by q T3 (parked_by q T2 (parked_by q T1 s))) in *.
  set (c := counter s). set (l := length (tickets s)).
  assert (Hq3 : parked s3 q = [(c, l); (S c, S l); (S (S c), S (S l))]).
  { unfold s3. rewrite !parked_parked_by, !decide_True, He by done. simpl.
    rewrite !length_app. simpl. unfold c, l.
    by rewrite !Nat.add_1_r. }
  assert (Ht3 : lot_tasks s3 q = [T1; T2; T3]).
  { unfold s3. rewrite !lot_tasks_parked_by, !decide_True by done.
    by rewrite (lot_tasks_nil s q He). }
  assert (Hin : (S c, S l) ∈ parked s3 q).
  { rewrite Hq3. right. left. }
  pose proof (abort_run s3 q (S c) (S l) Hwf3 Hin) as Habort.
  rewrite Hq3 in Habort.
  rewrite filter_cons_True in Habort by (simpl; lia).
  rewrite filter_cons_False in Habort by (simpl; lia).
  rewrite filter_cons_True in Habort by (simpl; lia).
  rewrite filter_nil in Habort.
  set (s4 := set_parked q [(c, l); (S (S c), S (S l))] s3) in *.
  assert (Hwf4 : wf s4).
  { apply wf_set_parked_sublist; [done|]. rewrite Hq3.
    apply sublist_skip, sublist_cons, sublist_skip, sublist_nil. }
  assert (Hq4 : parked s4 q = [(c, l); (S (S c), S (S l))])
    by apply parked_set_parked_eq.
  assert (Ht4 : lot_tasks s4 q = [T1; T3]).
  { unfold lot_tasks in *. rewrite Hq4. rewrite Hq3 in Ht3.
    change (tasks_of s4) with (tasks_of s3). simpl in *.
    destruct (wf_task_of s3 q c l Hwf3) as [a Ha]; [rewrite Hq3; left|].
    destruct (wf_task_of s3 q (S c) (S l) Hwf3) as [b Hb]; [done|].
    destruct (wf_task_of s3 q (S (S c)) (S (S l)) Hwf3) as [d Hd];
      [rewrite Hq3; right; right; left|].
    unfold tasks_of in *. simpl in *. rewrite Ha, Hb, Hd in Ht3.
    rewrite Ha, Hd. by injection Ht3 as -> _ ->. }
  destruct (unpark_all_run q ALL result s4 Hwf4 eq_refl)
    as (s5 & Hun & _ & _ & _ & Hr5 & Hq5 & _).
  exists l, (S l), (S (S l)), (c, l), (S c, S l), (S (S c), S (S l)), s3, s4, s5.
  split.
  { rewrite park_each_cons by done. unfold bind at 1.
    rewrite park_each_cons by done. unfold bind at 1.
    rewrite park_each_cons by done. unfold bind at 1.
    simpl. unfold ret. rewrite !length_app. simpl. unfold l.
    by rewrite !Nat.add_1_r. }
  split; [done|]. do 3 (split; [done|]). split; [done|]. split; [done|].
  split; [intros q' Hne; by apply parked_set_parked_ne|].
  split; [done|]. split; [done|].
  split; [by rewrite Hun, Ht4|]. split.
  - rewrite Hr5, Ht4. done.
  - unfold __len__, parked_len. by rewrite Hq5.
Qed.

Lemma cancel_removes_one_witness :
  reachable init ∧ parked init 0 = [] ∧
  ∃ tr1 tr2 tr3 e1 e2 e3 s3 s4 s5,
    park_each 0 [10; 11; 12] init = (Ok [tr1; tr2; tr3], s3) ∧
    parked s3 0 = [e1; e2; e3] ∧ e1.2 = tr1 ∧ e2.2 = tr2 ∧ e3.2 = tr3 ∧
    abort tr2 s3 = (Ok SUCCEEDED, s4) ∧
    parked s4 0 = [e1; e3] ∧
    (∀ q', 0 ≠ q' → parked s4 q' = parked s3 q') ∧
    tickets s4 = tickets s3 ∧ runq s4 = runq s3 ∧
    unpark 0 ALL (Value PNone) s4 = (Ok [10; 12], s5) ∧
    runq s5 = runq init ++ [(10, Value PNone); (12, Value PNone)] ∧
    __len__ 0 s5 = (Ok 0%Z, s5).
Proof.
  split; [apply reachable_init|]. split; [reflexivity|].
  apply (cancel_removes_one 0 10 11 12 (Value PNone) init).
  - apply reachable_init.
  - reflexivity.
Defined.

(** C4.  Partial wakeup.  For a lot that holds [n] tasks and an integer
    [k] with [0 <= k <= n], [unpark(count=k)] returns and reschedules
    the tasks of the first [k] entries of the table, in table order.  The
    table is in ascending order of sequence number, so these are the [k]
    tasks that were deposited earliest: each of their keys is below every
    key that stays.  The other [n-k] entries stay in the table as they
    were, in the same order, and no other lot changes. *)
Theorem unpark_partial q k result s :
  reachable s → (0 ≤ k ≤ Z.of_nat (length (parked s q)))%Z →
  ∃ s',
    unpark q (Count k) result s
      = (Ok (take (Z.to_nat k) (lot_tasks s q)), s') ∧
    length (take (Z.to_nat k) (lot_tasks s q)) = Z.to_nat k ∧
    runq s' = runq s ++
      map (λ t, (t, result)) (take (Z.to_nat k) (lot_tasks s q)) ∧
    parked s' q = drop (Z.to_nat k) (parked s q) ∧
    length (parked s' q) = length (parked s q) - Z.to_nat k ∧
    lot_tasks s' q = drop (Z.to_nat k) (lot_tasks s q) ∧
    ascending (parked s q) ∧
    (∀ e1 e2, e1 ∈ take (Z.to_nat k) (parked s q) → e2 ∈ parked s' q →
              e1.1 < e2.1) ∧
    (∀ q', q ≠ q' → parked s' q' = parked s q').
Proof.
  intros Hwf%reachable_wf Hk.
  destruct (unpark_run q (Count k) result s Hwf)
    as (s' & Hun & Hwf' & Hc & Ht & Hr & Hq & Ho).
  assert (Hn : pop_count (Count k) (length (parked s q)) = Z.to_nat k)
    by (simpl; lia).
  rewrite Hn in Hun, Hr, Hq.
  exists s'. split; [done|]. split.
  { rewrite length_take, lot_tasks_length by done. lia. }
  split; [done|]. split; [done|]. split.
  { by rewrite Hq, length_drop. }
  split.
  { unfold lot_tasks at 1. rewrite Hq.
    rewrite (tasks_of_ext s s') by (intros; unfold task_of; by rewrite Ht).
    by apply lot_tasks_drop. }
  split; [apply Hwf|]. split; [|done].
  intros e1 e2 H1 H2. rewrite Hq in H2.
  pose proof (wf_ascending s Hwf q) as Hasc. unfold ascending in Hasc.
  rewrite <- (take_drop (Z.to_nat k) (parked s q)) in Hasc.
  unfold SortedDict.keys in Hasc. rewrite fmap_app in Hasc.
  eapply (StronglySorted_app_1_elem_of _ _ _ _ _ Hasc);
    by apply list_elem_of_fmap_2.
Qed.

Lemma unpark_partial_witness :
  reachable (run [Park 0 10; Park 0 11; Park 0 12] init) ∧
  (0 ≤ 2 ≤ Z.of_nat (length (parked (run [Park 0 10; Park 0 11; Park 0 12] init) 0)))%Z ∧
  ∃ s',
    unpark 0 (Count 2) (Value PNone) (run [Park 0 10; Park 0 11; Park 0 12] init)
      = (Ok [10; 11], s') ∧
    lot_tasks s' 0 = [12].
Proof.
  split; [by eexists|]. split; [by vm_compute|].
  destruct (unpark_partial 0 2 (Value PNone)
              (run [Park 0 10; Park 0 11; Park 0 12] init))
    as (s' & Hun & _ & _ & _ & _ & Htasks & _).
  - by eexists.
  - by vm_compute.
  - exists s'. split; [exact Hun|exact Htasks].
Defined.

(** C5.  An oversized count is not an error.  With [count=ALL], or with
    an integer count above the number of parked tasks, [unpark] returns
    normally: it returns and reschedules every task of the lot, one list
    item per table entry, and leaves the lot empty.  So after two tasks
    parked in an empty lot, [unpark(count=5)] returns the two of them. *)
Theorem unpark_oversized q c result s :
  reachable s →
  (c = ALL ∨ ∃ z, c = Count z ∧ (Z.of_nat (length (parked s q)) < z)%Z) →
  (∃ s',
    unpark q c result s = (Ok (lot_tasks s q), s') ∧
    length (lot_tasks s q) = length (parked s q) ∧
    runq s' = runq s ++ map (λ t, (t, result)) (lot_tasks s q) ∧
    parked s' q = []) ∧
  (parked s q = [] → ∀ T1 T2, ∃ trs s2 s3,
    park_each q [T1; T2] s = (Ok trs, s2) ∧
    unpark q (Count 5) result s2 = (Ok [T1; T2], s3) ∧
    parked s3 q = []).
Proof.
  intros Hwf%reachable_wf Hc. split.
  - destruct (unpark_all_run q c result s Hwf) as (s' & Hun & _ & _ & _ & Hr & Hq & _).
    { destruct Hc as [->|(z & -> & Hz)]; simpl; lia. }
    exists s'. split; [done|]. split; [by apply lot_tasks_length|]. done.
  - intros He T1 T2.
    destruct (park_each_run q [T1; T2] s Hwf)
      as (trs & s2 & Hpark & _ & Hwf2 & _ & Htasks & _).
    rewrite (lot_tasks_nil s q He) in Htasks. simpl in Htasks.
    destruct (unpark_all_run q (Count 5) result s2 Hwf2)
      as (s3 & Hun & _ & _ & _ & _ & Hq & _).
    { rewrite <- (lot_tasks_length s2 q Hwf2), Htasks. done. }
    exists trs, s2, s3. by rewrite Hun, Htasks.
Qed.

Lemma unpark_oversized_witness :
  reachable (run [Park 0 10; Park 0 11] init) ∧
  (Z.of_nat (length (parked (run [Park 0 10; Park 0 11] init) 0)) < 5)%Z ∧
  ∃ s',
    unpark 0 (Count 5) (Value PNone) (run [Park 0 10; Park 0 11] init)
      = (Ok [10; 11], s') ∧
    parked s' 0 = [].
Proof.
  split; [by eexists|]. split; [by vm_compute|].
  destruct (unpark_oversized 0 (Count 5) (Value PNone)
              (run [Park 0 10; Park 0 11] init))
    as ((s' & Hun & _ & _ & Hq) & _).
  - by eexists.
  - right. exists 5%Z. split; [done|]. by vm_compute.
  - exists s'. split; [exact Hun|exact Hq].
Defined.

(** C6.  Argument validation.  When [new_lot] is not a [ParkingLot],
    [repark] raises [TypeError] at once, whatever the count: the state
    after the call is the state before it, so no ticket was popped or
    inserted in any lot, no sequence number was drawn and no task was
    rescheduled. *)
Theorem repark_rejects_non_lot q target c s :
  isinstance_ParkingLot target = false →
  repark q target c s = (Raise (TypeError "new_lot must be a ParkingLot"), s).
Proof. intros Hnot. unfold repark. by rewrite Hnot. Qed.

Lemma repark_rejects_non_lot_witness :
  isinstance_ParkingLot (PInt 3) = false ∧
  repark 0 (PInt 3) ALL (run [Park 0 10; Park 1 11] init)
    = (Raise (TypeError "new_lot must be a ParkingLot"),
       run [Park 0 10; Park 1 11] init).
Proof.
  split; [reflexivity|].
  apply (repark_rejects_non_lot 0 (PInt 3) ALL). reflexivity.
Defined.



(** C8.  Size and emptiness.  After any sequence of park, unpark,
    cancel and repark operations, for every lot: the entries of its
    table have pairwise distinct keys and pairwise distinct tickets;
    [len(lot)] is the number of these entries, which is not negative;
    [bool(lot)] is [False], that is, [not lot] holds, exactly when that
    number is 0; and [lot.statistics().tasks_waiting] is that same
    number.  None of the three calls changes the state. *)
Theorem size_consistent ops q :
  let s := run ops init in
  let size := Z.of_nat (length (parked s q)) in
  NoDup (SortedDict.keys (parked s q)) ∧
  NoDup (SortedDict.values (parked s q)) ∧
  __len__ q s = (Ok size, s) ∧
  (0 ≤ size)%Z ∧
  (∃ b, __bool__ q s = (Ok b, s) ∧ (negb b = true ↔ size = 0%Z)) ∧
  statistics q s = (Ok {| tasks_waiting := size |}, s).
Proof.
  intros s size.
  assert (Hwf : wf s) by apply wf_run, wf_init.
  split; [apply ascending_NoDup, Hwf|]. split; [by apply wf_NoDup_values|].
  split; [done|]. split; [unfold size; lia|]. split; [|done].
  exists (SortedDict.truth (parked s q)). split; [done|].
  unfold size. destruct (parked s q); simpl; split; intros; (done || lia).
Qed.

(** C9.  Cancellation follows the ticket.  The closure [abort] holds a
    reference to the ticket, and [_deposit_ticket] overwrites the index
    and the lot in that same object.  So in every reachable state, that
    is after any number of transfers, a ticket that sits in the table of
    a lot [q] under key [k] records exactly [k] and [q], and its abort
    closure returns [Abort.SUCCEEDED], removes exactly that entry from
    the table of [q] and changes nothing else.  In particular: let a
    task park in [Q1] and let [Q1] be reparked to another lot [Q2]; its
    ticket, the same object, now records [Q2] and a new, larger sequence
    number; its abort closure then removes it from the table of [Q2] and
    leaves [Q1] as it is. *)
Theorem abort_follows_ticket q k tr s :
  reachable s → (k, tr) ∈ parked s q →
  (∃ T s',
    tickets s !! tr = Some (Ticket T (Some k) (Some q)) ∧
    abort tr s = (Ok SUCCEEDED, s') ∧
    parked s' q = filter (λ e, e ≠ (k, tr)) (parked s q) ∧
    (∀ q', q ≠ q' → parked s' q' = parked s q') ∧
    tickets s' = tickets s ∧ counter s' = counter s ∧ runq s' = runq s) ∧
  (∀ q1 q2 T, q1 ≠ q2 →
    ∃ tr1 s1 s2 s3 k2,
      park q1 T s = (Ok tr1, s1) ∧
      tickets s1 !! tr1 = Some (Ticket T (Some (counter s)) (Some q1)) ∧
      (counter s, tr1) ∈ parked s1 q1 ∧
      repark q1 (PLot q2) ALL s1 = (Ok tt, s2) ∧
      tickets s2 !! tr1 = Some (Ticket T (Some k2) (Some q2)) ∧
      counter s < k2 ∧
      (k2, tr1) ∈ parked s2 q2 ∧
      parked s2 q1 = [] ∧
      abort tr1 s2 = (Ok SUCCEEDED, s3) ∧
      parked s3 q2 = filter (λ e, e ≠ (k2, tr1)) (parked s2 q2) ∧
      parked s3 q1 = parked s2 q1).
Proof.
  intros Hwf%reachable_wf Hin. split.
  { destruct (abort_present q k tr s Hwf Hin) as (T & s' & HT & Hab & _ & Hrest).
    by exists T, s'. }
  intros q1 q2 T Hne.
  set (s1 := parked_by q1 T s). set (tr1 := length (tickets s)).
  assert (Hwf1 : wf s1) by (by apply wf_parked_by).
  assert (HT1 : tickets s1 !! tr1 = Some (Ticket T (Some (counter s)) (Some q1))).
  { unfold s1, tr1. simpl. by rewrite lookup_app_r, Nat.sub_diag. }
  assert (Hin1 : (counter s, tr1) ∈ parked s1 q1).
  { unfold s1. rewrite parked_parked_by, decide_True by done.
    apply elem_of_app. right. left. }
  destruct (repark_run q1 q2 ALL s1 Hwf1)
    as (s2 & Hrun & Hwf2 & Hc & _ & Htask & Hp).
  simpl in Hp, Hc.
  assert (Hq1 : parked s2 q1 = []).
  { rewrite Hp, decide_True, decide_False by done.
    by rewrite drop_all. }
  assert (Hq2 : parked s2 q2 = parked s1 q2 ++ moved s1 q1 (length (parked s1 q1))).
  { by rewrite Hp, decide_False, decide_True. }
  assert (Hval : tr1 ∈ SortedDict.values (moved s1 q1 (length (parked s1 q1)))).
  { rewrite moved_values, firstn_all. unfold SortedDict.values.
    apply list_elem_of_fmap. by exists (counter s, tr1). }
  unfold SortedDict.values in Hval.
  apply list_elem_of_fmap in Hval as [[k2 tr'] [Heq Hmoved]].
  simpl in Heq. subst tr'.
  assert (Hk2 : counter s < k2).
  { assert (Hkey : k2 ∈ SortedDict.keys (moved s1 q1 (length (parked s1 q1)))).
    { unfold SortedDict.keys. apply list_elem_of_fmap. by exists (k2, tr1). }
    rewrite moved_keys in Hkey by done. apply elem_of_seq in Hkey.
    simpl in Hkey. lia. }
  assert (Hin2 : (k2, tr1) ∈ parked s2 q2).
  { rewrite Hq2. apply elem_of_app. by right. }
  destruct (abort_present q2 k2 tr1 s2 Hwf2 Hin2)
    as (T' & s3 & HT2 & Hab & _ & Hq3 & Hother & _).
  assert (T' = T) as ->.
  { specialize (Htask tr1). unfold task_of in Htask.
    rewrite HT1, HT2 in Htask. by injection Htask. }
  exists tr1, s1, s2, s3, k2.
  split; [by apply park_run|].
  repeat (split; [done|]).
  apply Hother. done.
Qed.

Lemma abort_follows_ticket_witness :
  reachable (run [Park 0 7; Park 1 8; Repark 0 (PLot 1) ALL] init) ∧
  (2, 0) ∈ parked (run [Park 0 7; Park 1 8; Repark 0 (PLot 1) ALL] init) 1 ∧
  ∃ s',
    abort 0 (run [Park 0 7; Park 1 8; Repark 0 (PLot 1) ALL] init)
      = (Ok SUCCEEDED, s') ∧
    parked s' 1 = [(1, 1)] ∧ parked s' 0 = [].
Proof.
  split; [by eexists|].
  assert (Hin : (2, 0) ∈
    parked (run [Park 0 7; Park 1 8; Repark 0 (PLot 1) ALL] init) 1).
  { right. left. }
  split; [exact Hin|].
  destruct (abort_follows_ticket 1 2 0
              (run [Park 0 7; Park 1 8; Repark 0 (PLot 1) ALL] init))
    as ((T & s' & _ & Hab & Hq & Hother & _) & _).
  - by eexists.
  - exact Hin.
  - exists s'. split; [exact Hab|]. split; [exact Hq|].
    exact (Hother 0 ltac:(done)).
Defined.

(** C10.  A negative count pops nothing.  For a negative integer count,
    [unpark] returns the empty list and [repark] to a lot returns
    normally, and each leaves the whole state as it was: nothing is
    popped, moved or rescheduled, because [range(min(count, size))] is
    empty. *)
Theorem negative_count_pops_nothing q q2 z result s :
  (z < 0)%Z →
  pop_count (Count z) (length (parked s q)) = 0 ∧
  unpark q (Count z) result s = (Ok [], s) ∧
  repark q (PLot q2) (Count z) s = (Ok tt, s).
Proof.
  intros Hz.
  assert (Hn : pop_count (Count z) (length (parked s q)) = 0) by (simpl; lia).
  split; [done|]. split.
  - unfold unpark, bind. by rewrite pop_several_run, Hn.
  - unfold repark, bind. simpl. by rewrite pop_several_run, Hn.
Qed.

Lemma negative_count_pops_nothing_witness :
  (-1 < 0)%Z ∧
  unpark 0 (Count (-1)) (Value PNone) (run [Park 0 10; Park 1 11] init)
    = (Ok [], run [Park 0 10; Park 1 11] init) ∧
  repark 0 (PLot 1) (Count (-1)) (run [Park 0 10; Park 1 11] init)
    = (Ok tt, run [Park 0 10; Park 1 11] init).
Proof.
  split; [lia|].
  apply (negative_count_pops_nothing 0 1 (-1) (Value PNone)). lia.
Defined.

(** * Further properties *)

(** ** Sequence numbers identify tickets *)

Lemma ids_init : ids_ok init.
Proof. split; intros tr; simpl; by rewrite lookup_nil. Qed.

Lemma ids_same_tickets s s' : tickets s' = tickets s → ids_ok s → ids_ok s'.
Proof. intros Heq [H1 H2]. split; rewrite Heq; done. Qed.

Lemma tickets_abort tr s : tickets (abort tr s).2 = tickets s.
Proof.
  unfold abort, bind, load.
  destruct (tickets s !! tr) as [[t [k|] [q|]]|]; simpl; try done.
  unfold parked_delitem.
  by destruct (SortedDict.delitem k (parked s q)).
Qed.

Lemma ids_deposited_state q tr t s :
  wf s → ids_ok s → tickets s !! tr = Some t → ids_ok (deposited q tr t s).
Proof.
  intros Hwf [Hdep Hinj] Ht. pose proof (lookup_lt_Some _ _ _ Ht) as Hlt.
  assert (Hlook : ∀ tr0 t0, tickets (deposited q tr t s) !! tr0 = Some t0 →
    (tr0 = tr ∧ t0 = Ticket (t_task t) (Some (counter s)) (Some q)) ∨
    (tr0 ≠ tr ∧ tickets s !! tr0 = Some t0)).
  { intros tr0 t0. simpl. destruct (decide (tr = tr0)) as [<-|Hne].
    - rewrite list_lookup_insert_eq by done. intros [= <-]. by left.
    - rewrite list_lookup_insert_ne by done. intros. right. by split. }
  split.
  - intros tr0 t0 [[-> ->]|[_ H0]]%Hlook; [by split; eexists|by eapply Hdep].
  - intros tr1 tr2 t1 t2 k H1%Hlook H2%Hlook Hk1 Hk2.
    destruct H1 as [[-> ->]|[Hn1 H1]], H2 as [[-> ->]|[Hn2 H2]]; try done.
    + simpl in Hk1. injection Hk1 as <-.
      pose proof (wf_idx s Hwf _ _ _ H2 Hk2). lia.
    + simpl in Hk2. injection Hk2 as <-.
      pose proof (wf_idx s Hwf _ _ _ H1 Hk1). lia.
    + by eapply Hinj.
Qed.

Lemma ids_parked_by q t s : wf s → ids_ok s → ids_ok (parked_by q t s).
Proof.
  intros Hwf [Hdep Hinj].
  assert (Hlook : ∀ tr0 t0, tickets (parked_by q t s) !! tr0 = Some t0 →
    tickets s !! tr0 = Some t0 ∨ t0 = Ticket t (Some (counter s)) (Some q)).
  { intros tr0 t0. simpl. intros [H0|[_ H0]]%lookup_app_Some; [by left|].
    apply list_lookup_singleton_Some in H0 as [_ <-]. by right. }
  split.
  - intros tr0 t0 [H0| ->]%Hlook; [by eapply Hdep|by split; eexists].
  - intros tr1 tr2 t1 t2 k H1 H2 Hk1 Hk2.
    pose proof (Hlook _ _ H1) as [H1'| ->];
      pose proof (Hlook _ _ H2) as [H2'| ->].
    + by eapply Hinj.
    + simpl in Hk2. injection Hk2 as <-.
      pose proof (wf_idx s Hwf _ _ _ H1' Hk1). lia.
    + simpl in Hk1. injection Hk1 as <-.
      pose proof (wf_idx s Hwf _ _ _ H2' Hk2). lia.
    + simpl in H1, H2.
      apply lookup_app_Some in H1 as [H1|[Hge1 H1]].
      { pose proof (wf_idx s Hwf _ _ _ H1 Hk1). simpl in Hk2.
        injection Hk2 as <-. lia. }
      apply lookup_app_Some in H2 as [H2|[Hge2 H2]].
      { pose proof (wf_idx s Hwf _ _ _ H2 Hk2). simpl in Hk1.
        injection Hk1 as <-. lia. }
      apply list_lookup_singleton_Some in H1 as [H1 _].
      apply list_lookup_singleton_Some in H2 as [H2 _]. lia.
Qed.

Lemma ids_repark_loop q1 q2 n s :
  wf s → ids_ok s →
  ids_ok (pop_loop q1 n (call_deposit_ticket (PLot q2)) s).2.
Proof.
  revert s. induction n as [|n IH]; intros s Hwf Hids; [done|].
  destruct (parked s q1) as [|[k tr] d] eqn:Hq.
  { simpl. by rewrite (bind_raise _ _ _ _ _ (popitem_empty q1 s Hq)). }
  assert (Hin : (k, tr) ∈ parked s q1) by (rewrite Hq; left).
  destruct (wf_owner s Hwf _ _ _ Hin) as [t Ht].
  pose proof (popitem_run q1 k tr d s Hq) as Hpop.
  assert (Hwf1 : wf (set_parked q1 d s)).
  { apply wf_set_parked_sublist; [done|]. rewrite Hq. by apply sublist_cons. }
  assert (Hfl : floating (set_parked q1 d s) tr)
    by (by apply (wf_popped_floating s q1 k)).
  assert (Ht1 : tickets (set_parked q1 d s) !! tr
                = Some (Ticket t (Some k) (Some q1))) by done.
  pose proof (deposit_run q2 tr _ _ Ht1) as Hdep.
  assert (Hwf2 : wf (deposited q2 tr (Ticket t (Some k) (Some q1))
                       (set_parked q1 d s))) by (by apply wf_deposited).
  assert (Hids2 : ids_ok (deposited q2 tr (Ticket t (Some k) (Some q1))
                            (set_parked q1 d s))).
  { apply ids_deposited_state; [done| |done].
    by apply (ids_same_tickets s). }
  specialize (IH _ Hwf2 Hids2).
  simpl. rewrite (bind_ok _ _ _ _ _ Hpop), (bind_ok _ _ _ _ _ Hdep).
  unfold bind at 1.
  by destruct (pop_loop q1 n _ _) as [[r|e] s'].
Qed.

Lemma ids_step o s : wf s → ids_ok s → ids_ok (step o s).
Proof.
  intros Hwf Hids. destruct o as [q t|q c r|tr|q v c]; simpl.
  - rewrite park_run by done. by apply ids_parked_by.
  - destruct (unpark_run q c r s Hwf) as (s' & Hun & _ & _ & Ht & _).
    rewrite Hun. by apply (ids_same_tickets s).
  - apply (ids_same_tickets s); [apply tickets_abort|done].
  - destruct v as [| | |q2]; try done.
    unfold repark. simpl. unfold bind at 1.
    pose proof (ids_repark_loop q q2 (pop_count c (length (parked s q))) s
                  Hwf Hids) as Hloop.
    rewrite <- pop_several_run in Hloop.
    by destruct (_pop_several q c _ s) as [[r|e] s'].
Qed.

Lemma reachable_ids s : reachable s → ids_ok s.
Proof.
  intros [ops ->].
  assert (H : wf (run ops init) ∧ ids_ok (run ops init)); [|apply H].
  generalize wf_init ids_init. generalize init.
  induction ops as [|o ops IH]; intros s Hwf Hids; [done|].
  simpl. apply IH; [by apply wf_step|by apply ids_step].
Qed.

Lemma reachable_unpark q c result s :
  reachable s → reachable (unpark q c result s).2.
Proof. apply (reachable_step (Unpark q c result)). Qed.

Lemma ascending_NoDup_entries (d : SortedDict.t) : ascending d → NoDup d.
Proof. intros Hasc. eapply NoDup_fmap_1, ascending_NoDup, Hasc. Qed.

Lemma abort_floating tr t s :
  wf s → ids_ok s → tickets s !! tr = Some t → floating s tr →
  abort tr s = (Raise KeyError, s).
Proof.
  intros Hwf Hids Ht Hfl.
  destruct (ids_deposited s Hids tr t Ht) as [[k Hk] [q Hq]].
  unfold abort. rewrite (bind_ok _ _ _ _ _ (load_run _ _ _ Ht)).
  rewrite Hq, Hk. unfold bind, parked_delitem.
  rewrite delitem_absent; [done|].
  unfold SortedDict.keys. intros [[k' tr'] [Heq Hin]]%list_elem_of_fmap.
  simpl in Heq. subst k'.
  destruct (wf_owner s Hwf _ _ _ Hin) as [T HT].
  assert (tr = tr') as <-.
  { by apply (ids_injective s Hids tr tr' t (Ticket T (Some k) (Some q)) k). }
  by apply (Hfl q k).
Qed.

(** X1.  A stale abort hook does no harm.  In a reachable state, the
    abort closure of a ticket that is in no table any more (its task was
    unparked, or cancelled before) raises [KeyError] and leaves the whole
    state as it was: the sequence number it recorded is never in use
    again, so it cannot remove the ticket of another task. *)
Theorem abort_stale_raises tr t s :
  reachable s → tickets s !! tr = Some t → floating s tr →
  abort tr s = (Raise KeyError, s).
Proof.
  intros Hr Ht Hfl.
  by apply (abort_floating tr t); [apply reachable_wf|apply reachable_ids| |].
Qed.

Lemma abort_stale_raises_witness :
  reachable (run [Park 0 10; Cancel 0] init) ∧
  tickets (run [Park 0 10; Cancel 0] init) !! 0
    = Some (Ticket 10 (Some 0) (Some 0)) ∧
  floating (run [Park 0 10; Cancel 0] init) 0 ∧
  abort 0 (run [Park 0 10; Cancel 0] init)
    = (Raise KeyError, run [Park 0 10; Cancel 0] init).
Proof.
  assert (Hfl : floating (run [Park 0 10; Cancel 0] init) 0).
  { intros q k. unfold parked.
    replace (lots (run [Park 0 10; Cancel 0] init))
      with (<[0 := []]> (∅ : gmap nat (list (nat * nat))))
      by (by vm_compute).
    destruct (decide (q = 0)) as [->|Hne].
    - rewrite lookup_insert_eq. simpl. apply not_elem_of_nil.
    - rewrite lookup_insert_ne, lookup_empty by done. simpl.
      apply not_elem_of_nil. }
  split; [by eexists|]. split; [reflexivity|]. split; [exact Hfl|].
  apply (abort_stale_raises 0 (Ticket 10 (Some 0) (Some 0))).
  - by eexists.
  - reflexivity.
  - exact Hfl.
Defined.

(** X2.  Wakeup and cancellation exclude each other.  Once [unpark] has
    popped a ticket, that ticket is in no table, and calling its abort
    closure afterwards raises [KeyError] without changing anything: a
    task that was rescheduled cannot also be cancelled out of a lot. *)
Theorem unpark_excludes_abort q c result tr s :
  reachable s →
  tr ∈ SortedDict.values (take (pop_count c (length (parked s q))) (parked s q)) →
  ∃ tasks s',
    unpark q c result s = (Ok tasks, s') ∧
    floating s' tr ∧
    abort tr s' = (Raise KeyError, s').
Proof.
  intros Hr Hin. pose proof (reachable_wf s Hr) as Hwf.
  destruct (unpark_run q c result s Hwf)
    as (s' & Hun & Hwf' & _ & Ht & _ & Hq & Hother).
  unfold SortedDict.values in Hin.
  apply list_elem_of_fmap in Hin as [[k tr0] [Heq Htake]].
  simpl in Heq. subst tr0.
  assert (Hin : (k, tr) ∈ parked s q).
  { eapply sublist_subseteq; [apply sublist_take|done]. }
  assert (Hfl : floating s' tr).
  { intros q' k' Hin'. destruct (decide (q = q')) as [<-|Hne].
    - rewrite Hq in Hin'.
      assert (Hin2 : (k', tr) ∈ parked s q).
      { eapply sublist_subseteq; [apply sublist_drop|done]. }
      destruct (wf_unique_place s q q k k' tr Hwf Hin Hin2) as [_ <-].
      pose proof (ascending_NoDup_entries _ (wf_ascending s Hwf q)) as Hnd.
      rewrite <- (take_drop (pop_count c (length (parked s q))) (parked s q))
        in Hnd.
      apply NoDup_app in Hnd as (_ & Hdisj & _). by apply (Hdisj (k, tr)).
    - rewrite Hother in Hin' by done.
      by destruct (wf_unique_place s q q' k k' tr Hwf Hin Hin'). }
  destruct (wf_owner s Hwf _ _ _ Hin) as [T HT].
  eexists _, s'. split; [done|]. split; [done|].
  pose proof (reachable_unpark q c result s Hr) as Hr'.
  rewrite Hun in Hr'. simpl in Hr'.
  apply (abort_floating tr (Ticket T (Some k) (Some q)));
    [done|by apply reachable_ids|by rewrite Ht|done].
Qed.

Lemma unpark_excludes_abort_witness :
  reachable (run [Park 0 10; Park 0 11] init) ∧
  0 ∈ SortedDict.values
        (take (pop_count (Count 1) (length (parked (run [Park 0 10; Park 0 11] init) 0)))
              (parked (run [Park 0 10; Park 0 11] init) 0)) ∧
  ∃ tasks s',
    unpark 0 (Count 1) (Value PNone) (run [Park 0 10; Park 0 11] init)
      = (Ok tasks, s') ∧
    floating s' 0 ∧
    abort 0 s' = (Raise KeyError, s').
Proof.
  split; [by eexists|]. split; [vm_compute; left|].
  apply (unpark_excludes_abort 0 (Count 1) (Value PNone) 0).
  - by eexists.
  - vm_compute. left.
Defined.

(** X3.  One entry per ticket and per sequence number, over all lots.
    In a reachable state, two table entries, in the same lot or in two
    lots, that hold the same ticket or the same key are one and the same
    entry of one lot: no ticket is parked twice and no sequence number is
    used twice. *)
Theorem entries_unique q q' k k' tr tr' s :
  reachable s →
  (k, tr) ∈ parked s q → (k', tr') ∈ parked s q' →
  tr = tr' ∨ k = k' →
  q = q' ∧ k = k' ∧ tr = tr'.
Proof.
  intros Hr H1 H2 Hsame. pose proof (reachable_wf s Hr) as Hwf.
  pose proof (reachable_ids s Hr) as Hids.
  assert (tr = tr') as <-.
  { destruct Hsame as [?| <-]; [done|].
    destruct (wf_owner s Hwf _ _ _ H1) as [T1 HT1].
    destruct (wf_owner s Hwf _ _ _ H2) as [T2 HT2].
    by apply (ids_injective s Hids tr tr' _ _ k HT1 HT2). }
  destruct (wf_unique_place s q q' k k' tr Hwf H1 H2) as [-> ->]. done.
Qed.

Lemma entries_unique_witness :
  reachable (run [Park 0 10; Park 1 11] init) ∧
  (0, 0) ∈ parked (run [Park 0 10; Park 1 11] init) 0 ∧
  (0 = 0 ∨ 0 = 0) ∧
  (0 = 0 ∧ 0 = 0 ∧ 0 = 0).
Proof.
  assert (Hin : (0, 0) ∈ parked (run [Park 0 10; Park 1 11] init) 0).
  { vm_compute. left. }
  split; [by eexists|]. split; [exact Hin|]. split; [by left|].
  apply (entries_unique 0 0 0 0 0 0 (run [Park 0 10; Park 1 11] init)).
  - by eexists.
  - exact Hin.
  - exact Hin.
  - by left.
Defined.

Lemma moved_length s q n : n ≤ length (parked s q) → length (moved s q n) = n.
Proof.
  intros Hn. rewrite <- (length_fmap fst).
  change (fst <$> moved s q n) with (SortedDict.keys (moved s q n)).
  by rewrite moved_keys, length_seq.
Qed.

(** X4.  Reparking a lot onto itself rotates it.  In a reachable state
    [Q.repark(Q, count)] returns normally; the tasks it pops from the
    front come back at the end of the same table, in the order they were
    popped, behind the tasks that were not popped.  The lot keeps its
    size, no task is rescheduled and no other lot changes. *)
Theorem repark_self_rotates q c s :
  reachable s →
  ∃ s',
    repark q (PLot q) c s = (Ok tt, s') ∧
    lot_tasks s' q =
      drop (pop_count c (length (parked s q))) (lot_tasks s q) ++
      take (pop_count c (length (parked s q))) (lot_tasks s q) ∧
    length (parked s' q) = length (parked s q) ∧
    runq s' = runq s ∧
    ∀ q', q' ≠ q → parked s' q' = parked s q'.
Proof.
  intros Hwf%reachable_wf.
  destruct (repark_run q q c s Hwf) as (s' & Hrun & _ & _ & Hr & Htask & Hp).
  pose proof (pop_count_le c (length (parked s q))) as Hn.
  assert (Hq : parked s' q =
    drop (pop_count c (length (parked s q))) (parked s q) ++
    moved s q (pop_count c (length (parked s q)))).
  { by rewrite Hp, !decide_True. }
  exists s'. split; [done|]. split; [|split; [|split; [done|]]].
  - unfold lot_tasks at 1. rewrite Hq, fmap_app, tasks_of_app.
    rewrite !(tasks_of_ext s s') by (intros; apply Htask).
    rewrite lot_tasks_drop by done. f_equal.
    pose proof (moved_values s q (pop_count c (length (parked s q)))) as Hv.
    unfold SortedDict.values in Hv. rewrite Hv. by apply lot_tasks_take.
  - rewrite Hq, length_app, length_drop, moved_length by done. lia.
  - intros q' Hne. rewrite Hp, !decide_False by done. apply app_nil_r.
Qed.

Lemma repark_self_rotates_witness :
  reachable (run [Park 0 10; Park 0 11; Park 0 12] init) ∧
  ∃ s',
    repark 0 (PLot 0) (Count 1) (run [Park 0 10; Park 0 11; Park 0 12] init)
      = (Ok tt, s') ∧
    lot_tasks s' 0 = [11; 12; 10].
Proof.
  split; [by eexists|].
  destruct (repark_self_rotates 0 (Count 1)
              (run [Park 0 10; Park 0 11; Park 0 12] init))
    as (s' & Hrun & Htasks & _).
  - by eexists.
  - exists s'. split; [exact Hrun|exact Htasks].
Defined.

(** X5.  A parking task joins at the back.  In a reachable state
    [park] returns normally with a ticket that was in no table; the
    table of the lot is the old table with one entry appended, for that
    ticket, under a key above all keys of the old table.  So the task
    comes after every task already in the lot; no other lot changes and
    no task is rescheduled. *)
Theorem park_joins_at_back q t s :
  reachable s →
  ∃ tr s',
    park q t s = (Ok tr, s') ∧
    floating s tr ∧
    parked s' q = parked s q ++ [(counter s, tr)] ∧
    Forall (λ e, e.1 < counter s) (parked s q) ∧
    lot_tasks s' q = lot_tasks s q ++ [t] ∧
    (∀ q', q ≠ q' → parked s' q' = parked s q') ∧
    runq s' = runq s.
Proof.
  intros Hwf%reachable_wf.
  exists (length (tickets s)), (parked_by q t s).
  split; [by apply park_run|]. split.
  { intros q' k Hin. destruct (wf_owner s Hwf _ _ _ Hin) as [T HT].
    apply lookup_lt_Some in HT. lia. }
  split; [by rewrite parked_parked_by, decide_True|].
  split; [by apply wf_below_all|].
  split; [by rewrite lot_tasks_parked_by, decide_True|].
  split; [|done].
  intros q' Hne. by rewrite parked_parked_by, decide_False.
Qed.

Lemma park_joins_at_back_witness :
  reachable (run [Park 0 10; Park 1 11] init) ∧
  ∃ tr s',
    park 0 12 (run [Park 0 10; Park 1 11] init) = (Ok tr, s') ∧
    lot_tasks s' 0 = [10; 12].
Proof.
  split; [by eexists|].
  destruct (park_joins_at_back 0 12 (run [Park 0 10; Park 1 11] init))
    as (tr & s' & Hrun & _ & _ & _ & Htasks & _).
  - by eexists.
  - exists tr, s'. split; [exact Hrun|exact Htasks].
Defined.

(** X6.  Park, then cancel, restores every table.  In a reachable
    state, when a task parks and its abort closure is called right
    after, the closure returns [Abort.SUCCEEDED] and the table of every
    lot is again what it was before the task parked; no task was
    rescheduled.  Only the counter has moved on. *)
Theorem park_then_abort_restores q t s :
  reachable s →
  ∃ tr s1 s2,
    park q t s = (Ok tr, s1) ∧
    abort tr s1 = (Ok SUCCEEDED, s2) ∧
    (∀ q', parked s2 q' = parked s q') ∧
    runq s2 = runq s ∧
    counter s2 = S (counter s).
Proof.
  intros Hwf%reachable_wf.
  pose proof (wf_parked_by q t s Hwf) as Hwf1.
  assert (Hq1 : parked (parked_by q t s) q
                = parked s q ++ [(counter s, length (tickets s))])
    by (by rewrite parked_parked_by, decide_True).
  assert (Hin : (counter s, length (tickets s)) ∈ parked (parked_by q t s) q).
  { rewrite Hq1. apply elem_of_app. right. left. }
  destruct (abort_present q _ _ _ Hwf1 Hin)
    as (T & s2 & _ & Hab & _ & Hq2 & Hother & _ & Hc & Hr).
  exists (length (tickets s)), (parked_by q t s), s2.
  split; [by apply park_run|]. split; [done|]. split; [|by split].
  intros q'. destruct (decide (q = q')) as [<-|Hne].
  - rewrite Hq2, Hq1, filter_app.
    rewrite filter_cons_False, filter_nil, app_nil_r by (intros ?; done).
    apply filter_keeps_all. apply Forall_forall. intros [k tr] Hin' [= -> ->].
    pose proof (wf_below s q _ _ Hwf Hin'). lia.
  - rewrite Hother by done. by rewrite parked_parked_by, decide_False.
Qed.

Lemma park_then_abort_restores_witness :
  reachable (run [Park 0 10; Park 1 11] init) ∧
  ∃ tr s1 s2,
    park 0 12 (run [Park 0 10; Park 1 11] init) = (Ok tr, s1) ∧
    abort tr s1 = (Ok SUCCEEDED, s2) ∧
    parked s2 0 = [(0, 0)] ∧ parked s2 1 = [(1, 1)].
Proof.
  split; [by eexists|].
  destruct (park_then_abort_restores 0 12 (run [Park 0 10; Park 1 11] init))
    as (tr & s1 & s2 & Hrun & Hab & Hq & _).
  - by eexists.
  - exists tr, s1, s2. split; [exact Hrun|]. split; [exact Hab|].
    split; [exact (Hq 0)|exact (Hq 1)].
Defined.

Lemma lot_tasks_after_pop q n s s' :
  wf s → tickets s' = tickets s → parked s' q = drop n (parked s q) →
  lot_tasks s' q = drop n (lot_tasks s q).
Proof.
  intros Hwf Ht Hq. unfold lot_tasks at 1. rewrite Hq.
  rewrite (tasks_of_ext s s') by (intros; unfold task_of; by rewrite Ht).
  by apply lot_tasks_drop.
Qed.

(** X7.  Two wakeups in a row are one wakeup.  In a reachable state,
    for counts [a >= 0] and [b >= 0], [unpark(count=a)] followed by
    [unpark(count=b)] returns, in the two lists together, the tasks that
    a single [unpark(count=a+b)] returns, in the same order, and leaves
    the same tables, run queue, counter and tickets. *)
Theorem unpark_twice q a b result s :
  reachable s → (0 ≤ a)%Z → (0 ≤ b)%Z →
  ∃ l1 s1 l2 s2 s',
    unpark q (Count a) result s = (Ok l1, s1) ∧
    unpark q (Count b) result s1 = (Ok l2, s2) ∧
    unpark q (Count (a + b)) result s = (Ok (l1 ++ l2), s') ∧
    (∀ q', parked s2 q' = parked s' q') ∧
    runq s2 = runq s' ∧ counter s2 = counter s' ∧ tickets s2 = tickets s'.
Proof.
  intros Hwf%reachable_wf Ha Hb.
  destruct (unpark_run q (Count a) result s Hwf)
    as (s1 & Hun1 & Hwf1 & Hc1 & Ht1 & Hr1 & Hq1 & Ho1).
  destruct (unpark_run q (Count b) result s1 Hwf1)
    as (s2 & Hun2 & _ & Hc2 & Ht2 & Hr2 & Hq2 & Ho2).
  destruct (unpark_run q (Count (a + b)) result s Hwf)
    as (s' & Hun & _ & Hc & Ht & Hr & Hq & Ho).
  pose proof (lot_tasks_after_pop q _ s s1 Hwf Ht1 Hq1) as Htasks1.
  set (n1 := pop_count (Count a) (length (parked s q))) in *.
  set (n2 := pop_count (Count b) (length (parked s1 q))) in *.
  assert (Hn : pop_count (Count (a + b)) (length (parked s q)) = n1 + n2).
  { unfold n1, n2. rewrite Hq1, length_drop. fold n1. unfold n1. simpl. lia. }
  rewrite Hn in Hun, Hr, Hq.
  assert (Hl : take (n1 + n2) (lot_tasks s q)
               = take n1 (lot_tasks s q) ++ take n2 (lot_tasks s1 q)).
  { by rewrite Htasks1, take_take_drop. }
  eexists _, s1, _, s2, s'. split; [done|]. split; [done|].
  split; [by rewrite <- Hl|]. split; [|split; [|split]].
  - intros q'. destruct (decide (q = q')) as [<-|Hne].
    + by rewrite Hq2, Hq1, Hq, drop_drop.
    + by rewrite Ho2, Ho1, Ho.
  - by rewrite Hr2, Hr1, Hr, Hl, map_app, app_assoc.
  - by rewrite Hc2, Hc1, Hc.
  - by rewrite Ht2, Ht1, Ht.
Qed.

Lemma unpark_twice_witness :
  reachable (run [Park 0 10; Park 0 11; Park 0 12; Park 0 13] init) ∧
  (0 ≤ 1)%Z ∧ (0 ≤ 2)%Z ∧
  ∃ l1 s1 l2 s2 s',
    unpark 0 (Count 1) (Value PNone)
      (run [Park 0 10; Park 0 11; Park 0 12; Park 0 13] init) = (Ok l1, s1) ∧
    unpark 0 (Count 2) (Value PNone) s1 = (Ok l2, s2) ∧
    unpark 0 (Count (1 + 2)) (Value PNone)
      (run [Park 0 10; Park 0 11; Park 0 12; Park 0 13] init)
      = (Ok (l1 ++ l2), s') ∧
    parked s2 0 = parked s' 0.
Proof.
  split; [by eexists|]. split; [lia|]. split; [lia|].
  destruct (unpark_twice 0 1 2 (Value PNone)
              (run [Park 0 10; Park 0 11; Park 0 12; Park 0 13] init))
    as (l1 & s1 & l2 & s2 & s' & H1 & H2 & H3 & Hq & _).
  - by eexists.
  - lia.
  - lia.
  - exists l1, s1, l2, s2, s'. split; [exact H1|]. split; [exact H2|].
    split; [exact H3|exact (Hq 0)].
Defined.

(** X8.  Reparking there and back.  In a reachable state, let [Q2] be
    an empty lot other than [Q1].  After [Q1.repark(Q2)] and then
    [Q2.repark(Q1)], both with [count=ALL], [Q1] holds the same tickets
    and so the same tasks as before, in the same order, [Q2] is empty
    again, and no task was rescheduled. *)
Theorem repark_there_and_back q1 q2 s :
  reachable s → q1 ≠ q2 → parked s q2 = [] →
  ∃ s1 s2,
    repark q1 (PLot q2) ALL s = (Ok tt, s1) ∧
    parked s1 q1 = [] ∧
    repark q2 (PLot q1) ALL s1 = (Ok tt, s2) ∧
    SortedDict.values (parked s2 q1) = SortedDict.values (parked s q1) ∧
    lot_tasks s2 q1 = lot_tasks s q1 ∧
    parked s2 q2 = [] ∧
    runq s2 = runq s.
Proof.
  intros Hwf%reachable_wf Hne He.
  destruct (repark_run_distinct q1 q2 ALL s Hwf Hne)
    as (s1 & Hrun1 & Hwf1 & _ & Hr1 & Hq11 & Hq12 & Ht12 & _).
  destruct (repark_run_distinct q2 q1 ALL s1 Hwf1 (not_eq_sym Hne))
    as (s2 & Hrun2 & _ & _ & Hr2 & Hq22 & Hq21 & Ht21 & _).
  simpl in *. rewrite drop_all in Hq11, Hq22.
  rewrite He in Hq12. simpl in Hq12.
  rewrite (lot_tasks_nil s q2 He) in Ht12. simpl in Ht12.
  rewrite <- (lot_tasks_length s q1 Hwf), firstn_all in Ht12.
  rewrite Hq11 in Hq21. simpl in Hq21.
  rewrite (lot_tasks_nil s1 q1 Hq11) in Ht21. simpl in Ht21.
  rewrite <- (lot_tasks_length s1 q2 Hwf1), firstn_all, Ht12 in Ht21.
  exists s1, s2. split; [done|]. split; [done|]. split; [done|].
  split; [|split; [done|split; [done|by rewrite Hr2]]].
  rewrite Hq21, moved_values, firstn_all.
  by rewrite Hq12, moved_values, firstn_all.
Qed.

Lemma repark_there_and_back_witness :
  reachable (run [Park 0 10; Park 0 11] init) ∧ 0 ≠ 1 ∧
  parked (run [Park 0 10; Park 0 11] init) 1 = [] ∧
  ∃ s1 s2,
    repark 0 (PLot 1) ALL (run [Park 0 10; Park 0 11] init) = (Ok tt, s1) ∧
    repark 1 (PLot 0) ALL s1 = (Ok tt, s2) ∧
    lot_tasks s2 0 = [10; 11] ∧ parked s2 1 = [].
Proof.
  split; [by eexists|]. split; [done|]. split; [reflexivity|].
  destruct (repark_there_and_back 0 1 (run [Park 0 10; Park 0 11] init))
    as (s1 & s2 & H1 & _ & H2 & _ & Ht & Hq & _).
  - by eexists.
  - done.
  - reflexivity.
  - exists s1, s2. split; [exact H1|]. split; [exact H2|].
    split; [exact Ht|exact Hq].
Defined.

(** X9.  No count makes unpark or repark raise.  In a reachable state,
    for [count=ALL] and for every integer count, negative, zero or
    above the size, [unpark] returns normally with exactly
    [min(max(count, 0), size)] tasks ([size] tasks for [ALL]), and
    [repark] to a lot returns normally: [popitem] never meets an empty
    table. *)
Theorem unpark_repark_never_raise q c result q2 s :
  reachable s →
  (∃ tasks s',
    unpark q c result s = (Ok tasks, s') ∧
    length tasks = pop_count c (length (parked s q))) ∧
  (∃ s', repark q (PLot q2) c s = (Ok tt, s')) ∧
  (c = ALL → pop_count c (length (parked s q)) = length (parked s q)) ∧
  (∀ z, c = Count z →
    Z.of_nat (pop_count c (length (parked s q)))
    = Z.min (Z.max z 0) (Z.of_nat (length (parked s q)))).
Proof.
  intros Hwf%reachable_wf. split; [|split; [|split]].
  - destruct (unpark_run q c result s Hwf) as (s' & Hun & _).
    eexists _, s'. split; [done|].
    rewrite length_take, lot_tasks_length by done.
    pose proof (pop_count_le c (length (parked s q))). lia.
  - destruct (repark_run q q2 c s Hwf) as (s' & Hrun & _). by exists s'.
  - by intros ->.
  - intros z ->. simpl. lia.
Qed.

Lemma unpark_repark_never_raise_witness :
  reachable (run [Park 0 10; Park 0 11] init) ∧
  ∃ tasks s',
    unpark 0 (Count 7) (Value PNone) (run [Park 0 10; Park 0 11] init)
      = (Ok tasks, s') ∧
    length tasks = 2.
Proof.
  split; [by eexists|].
  destruct (unpark_repark_never_raise 0 (Count 7) (Value PNone) 1
              (run [Park 0 10; Park 0 11] init))
    as ((tasks & s' & Hun & Hlen) & _).
  - by eexists.
  - exists tasks, s'. split; [exact Hun|exact Hlen].
Defined.

Lemma moved_ticket_iff s q n tr :
  (∃ k, (k, tr) ∈ moved s q n) ↔ (∃ k, (k, tr) ∈ take n (parked s q)).
Proof.
  assert (Hval : ∀ d : list (nat * nat), (∃ k, (k, tr) ∈ d) ↔ tr ∈ d.*2).
  { intros d. rewrite list_elem_of_fmap. split.
    - intros [k Hin]. by exists (k, tr).
    - intros [[k tr'] [Heq Hin]]. simpl in Heq. subst tr'. by exists k. }
  rewrite !Hval. pose proof (moved_values s q n) as Hv.
  unfold SortedDict.values in Hv. by rewrite Hv.
Qed.

(** X10.  Repark loses no ticket and wakes no task.  In a reachable
    state, for every count and for lots that may be one and the same,
    [repark] returns normally and a ticket is in the table of some lot
    afterwards exactly when it was in the table of some lot before; no
    ticket changes its task, and no task is rescheduled. *)
Theorem repark_keeps_tickets q1 q2 c s :
  reachable s →
  ∃ s',
    repark q1 (PLot q2) c s = (Ok tt, s') ∧
    (∀ tr, parked_somewhere s' tr ↔ parked_somewhere s tr) ∧
    (∀ tr, task_of s' tr = task_of s tr) ∧
    runq s' = runq s.
Proof.
  intros Hwf%reachable_wf.
  destruct (repark_run q1 q2 c s Hwf) as (s' & Hrun & _ & _ & Hr & Htask & Hp).
  exists s'. split; [done|]. split; [|by split].
  set (n := pop_count c (length (parked s q1))) in *.
  intros tr. unfold parked_somewhere. split.
  - intros (q & k & Hin). rewrite Hp in Hin.
    apply elem_of_app in Hin as [Hin|Hin].
    + exists q, k. destruct (decide (q = q1)); [|done].
      eapply sublist_subseteq; [apply sublist_drop|done].
    + destruct (decide (q = q2)); [|by apply elem_of_nil in Hin].
      destruct (proj1 (moved_ticket_iff s q1 n tr)) as [k0 Hk0]; [by exists k|].
      exists q1, k0. eapply sublist_subseteq; [apply sublist_take|done].
  - intros (q & k & Hin).
    destruct (decide (q = q1)) as [->|Hne].
    + rewrite <- (take_drop n (parked s q1)) in Hin.
      apply elem_of_app in Hin as [Hin|Hin].
      * destruct (proj2 (moved_ticket_iff s q1 n tr)) as [k' Hk']; [by exists k|].
        exists q2, k'. rewrite Hp, (decide_True (P := q2 = q2)) by done.
        apply elem_of_app. by right.
      * exists q1, k. rewrite Hp, (decide_True (P := q1 = q1)) by done.
        apply elem_of_app. by left.
    + exists q, k. rewrite Hp, (decide_False (P := q = q1)) by done.
      apply elem_of_app. by left.
Qed.

Lemma repark_keeps_tickets_witness :
  reachable (run [Park 0 10; Park 0 11; Park 1 12] init) ∧
  ∃ s',
    repark 0 (PLot 1) (Count 1) (run [Park 0 10; Park 0 11; Park 1 12] init)
      = (Ok tt, s') ∧
    runq s' = [].
Proof.
  split; [by eexists|].
  destruct (repark_keeps_tickets 0 1 (Count 1)
              (run [Park 0 10; Park 0 11; Park 1 12] init))
    as (s' & Hrun & _ & _ & Hr).
  - by eexists.
  - exists s'. split; [exact Hrun|exact Hr].
Defined.

(** X11.  An empty lot.  In any state, on a lot whose table is empty,
    [unpark] returns the empty list and [repark] to a lot returns
    normally, for [count=ALL] and for every integer count, and each
    leaves the whole state as it was: nothing is popped, rescheduled or
    renumbered, and no [KeyError] comes out of [popitem]. *)
Theorem empty_lot_noop q c result q2 s :
  parked s q = [] →
  unpark q c result s = (Ok [], s) ∧
  repark q (PLot q2) c s = (Ok tt, s).
Proof.
  intros He.
  assert (Hn : pop_count c (length (parked s q)) = 0).
  { rewrite He. destruct c; simpl; lia. }
  split.
  - unfold unpark, bind. by rewrite pop_several_run, Hn.
  - unfold repark, bind. simpl. by rewrite pop_several_run, Hn.
Qed.

Lemma empty_lot_noop_witness :
  parked (run [Park 0 10] init) 1 = [] ∧
  unpark 1 (Count 3) (Value PNone) (run [Park 0 10] init)
    = (Ok [], run [Park 0 10] init) ∧
  repark 1 (PLot 0) ALL (run [Park 0 10] init)
    = (Ok tt, run [Park 0 10] init).
Proof.
  split; [reflexivity|].
  apply (empty_lot_noop 1 (Count 3) (Value PNone) 0). reflexivity.
Defined.

Lemma filter_out_one_length (e : nat * nat) (d : list (nat * nat)) :
  NoDup d → e ∈ d → S (length (filter (λ x, x ≠ e) d)) = length d.
Proof.
  induction d as [|x d IH]; [by intros _ ?%elem_of_nil|].
  intros [Hx Hnd]%NoDup_cons Hin. destruct (decide (x = e)) as [->|Hne].
  - rewrite filter_cons_False by (intros ?; done). simpl. f_equal.
    f_equal. apply filter_keeps_all. apply Forall_forall. by intros y Hy ->.
  - rewrite filter_cons_True by done. simpl. f_equal. apply IH; [done|].
    apply elem_of_cons in Hin as [->|Hin]; done.
Qed.

(** X12.  How each operation changes the size.  In a reachable state
    with [len(lot) = size]: after a task parked in the lot the length is
    [size + 1]; after [unpark] it is [size] less the number of tasks
    popped; after the abort closure of a ticket of the lot ran it is
    [size - 1]; and after [repark] to another lot the length of the
    source went down, and the length of the target went up, by the
    number of tickets moved. *)
Theorem len_tracks_operations q s :
  reachable s →
  (∀ t, (__len__ q (step (Park q t) s)).1
        = Ok (Z.of_nat (length (parked s q)) + 1)%Z) ∧
  (∀ c r, (__len__ q (step (Unpark q c r) s)).1
        = Ok (Z.of_nat (length (parked s q))
              - Z.of_nat (pop_count c (length (parked s q))))%Z) ∧
  (∀ k tr, (k, tr) ∈ parked s q →
        (__len__ q (step (Cancel tr) s)).1
        = Ok (Z.of_nat (length (parked s q)) - 1)%Z) ∧
  (∀ q2 c, q ≠ q2 →
        (__len__ q (step (Repark q (PLot q2) c) s)).1
        = Ok (Z.of_nat (length (parked s q))
              - Z.of_nat (pop_count c (length (parked s q))))%Z ∧
        (__len__ q2 (step (Repark q (PLot q2) c) s)).1
        = Ok (Z.of_nat (length (parked s q2))
              + Z.of_nat (pop_count c (length (parked s q))))%Z).
Proof.
  intros Hwf%reachable_wf.
  unfold __len__, parked_len, SortedDict.len. simpl.
  split; [|split; [|split]].
  - intros t. rewrite park_run by done. simpl.
    rewrite parked_parked_by, decide_True, length_app by done.
    simpl. f_equal. lia.
  - intros c r.
    destruct (unpark_run q c r s Hwf) as (s' & Hun & _ & _ & _ & _ & Hq & _).
    rewrite Hun. simpl. rewrite Hq, length_drop. f_equal.
    pose proof (pop_count_le c (length (parked s q))). lia.
  - intros k tr Hin.
    destruct (abort_present q k tr s Hwf Hin) as (T & s' & _ & Hab & _ & Hq & _).
    rewrite Hab. simpl. rewrite Hq. f_equal.
    pose proof (filter_out_one_length (k, tr) (parked s q)
      (ascending_NoDup_entries _ (wf_ascending s Hwf q)) Hin). lia.
  - intros q2 c Hne.
    destruct (repark_run_distinct q q2 c s Hwf Hne)
      as (s' & Hrun & _ & _ & _ & Hq1 & Hq2 & _).
    rewrite Hrun. simpl.
    pose proof (pop_count_le c (length (parked s q))) as Hn.
    rewrite Hq1, Hq2, length_drop, length_app, moved_length by done.
    split; f_equal; lia.
Qed.

Lemma len_tracks_operations_witness :
  reachable (run [Park 0 10; Park 0 11] init) ∧
  (__len__ 0 (step (Unpark 0 (Count 1) (Value PNone))
                (run [Park 0 10; Park 0 11] init))).1 = Ok 1%Z.
Proof.
  split; [by eexists|].
  destruct (len_tracks_operations 0 (run [Park 0 10; Park 0 11] init))
    as (_ & Hun & _).
  - by eexists.
  - exact (Hun (Count 1) (Value PNone)).
Defined.

(** X13.  The task of a ticket never changes.  In a reachable state, a
    ticket that belongs to a task still belongs to that task after any
    park, unpark, cancel or repark: [_deposit_ticket] overwrites the
    index and the lot of a ticket, never its first item. *)
Theorem ticket_task_fixed o tr t s :
  reachable s → task_of s tr = Some t → task_of (step o s) tr = Some t.
Proof.
  intros Hwf%reachable_wf Ht.
  destruct o as [q t0|q c r|tr0|q v c]; simpl.
  - rewrite park_run by done. unfold task_of in *. simpl.
    destruct (tickets s !! tr) as [T|] eqn:HT; [|done].
    by rewrite (lookup_app_l_Some _ _ _ _ HT).
  - destruct (unpark_run q c r s Hwf) as (s' & Hun & _ & _ & Hts & _).
    rewrite Hun. unfold task_of in *. simpl. by rewrite Hts.
  - unfold task_of in *. by rewrite tickets_abort.
  - destruct v as [| | |q2]; try done.
    destruct (repark_run q q2 c s Hwf) as (s' & Hrun & _ & _ & _ & Htask & _).
    rewrite Hrun. simpl. by rewrite Htask.
Qed.

Lemma ticket_task_fixed_witness :
  reachable (run [Park 0 10; Park 1 11] init) ∧
  task_of (run [Park 0 10; Park 1 11] init) 0 = Some 10 ∧
  task_of (step (Repark 0 (PLot 1) ALL) (run [Park 0 10; Park 1 11] init)) 0
    = Some 10.
Proof.
  split; [by eexists|]. split; [reflexivity|].
  apply (ticket_task_fixed (Repark 0 (PLot 1) ALL) 0 10).
  - by eexists.
  - reflexivity.
Defined.

(** X14.  Sequence numbers are never reused.  In a reachable state
    every ticket ever created, parked or not, records a sequence number
    and a lot, the number is below the counter, and no two tickets
    record the same number: a ticket that was reparked gave up its old
    number for good. *)
Theorem sequence_numbers_unique tr tr' t t' s :
  reachable s →
  tickets s !! tr = Some t → tickets s !! tr' = Some t' →
  (∃ k q, t_idx t = Some k ∧ t_lot t = Some q ∧ k < counter s) ∧
  (t_idx t = t_idx t' → tr = tr').
Proof.
  intros Hr Ht Ht'. pose proof (reachable_wf s Hr) as Hwf.
  pose proof (reachable_ids s Hr) as Hids.
  destruct (ids_deposited s Hids tr t Ht) as [[k Hk] [q Hq]].
  split.
  - exists k, q. split; [done|]. split; [done|]. by apply (wf_idx s Hwf tr t).
  - intros Heq. apply (ids_injective s Hids tr tr' t t' k); try done.
    by rewrite <- Heq.
Qed.

Lemma sequence_numbers_unique_witness :
  reachable (run [Park 0 10; Park 1 11; Repark 0 (PLot 1) ALL] init) ∧
  tickets (run [Park 0 10; Park 1 11; Repark 0 (PLot 1) ALL] init) !! 0
    = Some (Ticket 10 (Some 2) (Some 1)) ∧
  tickets (run [Park 0 10; Park 1 11; Repark 0 (PLot 1) ALL] init) !! 1
    = Some (Ticket 11 (Some 1) (Some 1)) ∧
  (∃ k q, Some 2 = Some k ∧ Some 1 = Some q ∧
          k < counter (run [Park 0 10; Park 1 11; Repark 0 (PLot 1) ALL] init)) ∧
  (Some 2 = Some 1 → 0 = 1).
Proof.
  split; [by eexists|]. split; [reflexivity|]. split; [reflexivity|].
  apply (sequence_numbers_unique 0 1 (Ticket 10 (Some 2) (Some 1))
           (Ticket 11 (Some 1) (Some 1))
           (run [Park 0 10; Park 1 11; Repark 0 (PLot 1) ALL] init)).
  - by eexists.
  - reflexivity.
  - reflexivity.
Defined.
